(** * Frontend management: a shallow embedding of [app/frontend_management.py]

    The module resolves a version specifier ([owner/repo@version]) to a
    directory holding a frontend bundle: it parses the specifier with a
    regular expression, probes a cache directory, asks a release API for the
    release, downloads and unpacks [dist.zip], and falls back to the bundled
    frontend on any error.

    Modelling choices, stated once:
    - a Python [str] is a Rocq [string]; its characters are the code points
      below 256.  On that range the class [\d] of Python's [re] is exactly
      ['0'..'9'];
    - exceptions are values of the type [exn]; a computation is a function
      from a state to an [Outcome]: a value, a raised exception, or
      [OutOfFuel] when the pagination loop, the only loop that may not
      end, has not finished within its fuel;
    - the world holds what the module can observe or change: the
      filesystem, the HTTP requests issued so far, and the log.  The
      filesystem maps a path to its node, a regular file or a directory
      with the names of its entries.  [makedirs] makes the missing
      directories above a path as well and enters each new directory in
      the listing of its parent; the members that [extractall] writes
      below a directory are recorded as entries of that directory.  A
      call fails for what the nodes are (a regular file where a directory
      is needed, a missing path); permissions and full disks are not
      part of the model;
    - the remote side is a function from the requests issued so far and the
      next request to a reply; responses carry a status, the [next] link
      and a body of one of the shapes the module reads;
    - [pathlib]'s [/] followed by [str] is platform dependent and is kept
      abstract ([joinpath]); so are the directories above a path and its
      last component ([Paths]), and the path and version constants that
      the installation supplies.

    Layout: the definitions (strings, the [re] fragment, the data model,
    the monad, the program, the notions used in statements, an example
    installation), then the properties: the matcher and
    [parse_version_string], the download, the provider, the download step,
    the resolver, closed instances, and further properties of the parser,
    the provider, the download, the resolver and [frontend_version], with
    their instances. *)

From Stdlib Require Import Ascii String NArith Lia.
From stdpp Require Import base option list strings gmap.

Set Default Proof Using "Type".

(** ** Strings *)

Module PyStr.

Definition chars (s : string) : list ascii := list_ascii_of_string s.
Definition str (l : list ascii) : string := string_of_list_ascii l.

(** [s.startswith(p)] *)
Definition startswith (p s : string) : bool := String.prefix p s.

(** [s.lstrip(cs)]: drop every leading character that occurs in [cs]. *)
Fixpoint lstrip_chars (cs : list ascii) (l : list ascii) : list ascii :=
  match l with
  | [] => []
  | a :: t => if bool_decide (a ∈ cs) then lstrip_chars cs t else l
  end.

Definition lstrip (cs s : string) : string := str (lstrip_chars (chars cs) (chars s)).

(** [s.removeprefix(p)], the operation that strips one leading [p]. *)
Fixpoint drop_prefix (p l : list ascii) : option (list ascii) :=
  match p, l with
  | [], _ => Some l
  | a :: p', b :: l' => if Ascii.eqb a b then drop_prefix p' l' else None
  | _ :: _, [] => None
  end.

Definition removeprefix (p s : string) : string :=
  match drop_prefix (chars p) (chars s) with
  | Some t => str t
  | None => s
  end.

(** Truthiness of a string: [""] is falsy. *)
Definition truthy (s : string) : bool := negb (String.eqb s "").

Definition in_range (lo hi c : ascii) : bool :=
  (N_of_ascii lo <=? N_of_ascii c)%N && (N_of_ascii c <=? N_of_ascii hi)%N.

(** [s.split(sep)] for a separator of one character: the pieces between
    the separators, one more than there are separators. *)
Fixpoint split_chars (sep : ascii) (l : list ascii) : list (list ascii) :=
  match l with
  | [] => [[]]
  | c :: t =>
      if Ascii.eqb c sep then [] :: split_chars sep t
      else match split_chars sep t with
           | piece :: pieces => (c :: piece) :: pieces
           | [] => [[c]]
           end
  end.

Definition split (sep : ascii) (s : string) : list string := str <$> split_chars sep (chars s).

Definition is_digit (c : ascii) : bool := in_range "0" "9" c.
Definition is_alnum (c : ascii) : bool :=
  in_range "a" "z" c || in_range "A" "Z" c || in_range "0" "9" c.

End PyStr.

(** ** Exceptions *)

Inductive os_error :=
| FileNotFoundError
| FileExistsError
| NotADirectoryError
| DirectoryNotEmpty.

Inductive exn :=
| ArgumentTypeError (msg : string)          (* argparse.ArgumentTypeError *)
| ValueError (msg : string)
| KeyError (key : string)
| HTTPError (status : N) (url : string)     (* requests.HTTPError, from raise_for_status *)
| RequestException (msg : string)           (* transport failure of requests.get *)
| JSONDecodeError                           (* response.json() on a body of another shape *)
| BadZipFile
| OSError (kind : os_error) (path : string).

(** The result of a function without effects. *)
Inductive Res (A : Type) :=
| Return (a : A)
| Raised (e : exn).
Arguments Return {A} a.
Arguments Raised {A} e.

(** ** The fragment of Python's [re] that [VERSION_PATTERN] uses

    Matching is by backtracking, in the priority order of [re]: the left
    branch of an alternation first, and as many repetitions as possible
    first.  [re.match] tries position 0 only. *)

Module Re.
Import PyStr.

Inductive regex :=
| Bol                                   (* ^ *)
| Eol                                   (* $ *)
| Chr (c : ascii)                       (* a literal character *)
| Lit (s : string)                      (* a literal word *)
| Class (c : ascii → bool)              (* [...] or \d *)
| Repeat (c : ascii → bool) (lo : nat) (hi : option nat)
                                        (* X{lo,hi}, X+, X? on a class X, greedy *)
| Cat (r1 r2 : regex)
| Alt (r1 r2 : regex)
| Group (n : nat) (r : regex).          (* the n-th capturing group *)

Record mstate := MState {
  pos : nat;                            (* characters consumed *)
  rest : list ascii;                    (* characters still to read *)
  groups : gmap nat (list ascii)        (* text captured so far *)
}.

Definition advance (n : nat) (st : mstate) : mstate :=
  MState (pos st + n) (drop n (rest st)) (groups st).

Definition capture (n : nat) (from to : mstate) : mstate :=
  MState (pos to) (rest to) (<[n := take (pos to - pos from) (rest from)]> (groups to)).

(** [$] without MULTILINE: at the end of the string, or just before a
    newline that is the last character. *)
Definition at_end (l : list ascii) : bool :=
  match l with
  | [] => true
  | [c] => Ascii.eqb c "010"
  | _ => false
  end.

Definition within (hi : option nat) (n : nat) : Prop :=
  match hi with Some h => n ≤ h | None => True end.

Definition decr (hi : option nat) : option nat := Nat.pred <$> hi.

Definition exhausted (hi : option nat) : bool :=
  match hi with Some 0 => true | _ => false end.

Section Matcher.
Context {R : Type}.

(** [X{lo,hi}] from position [p] on the text [l], then [k]: one more [X]
    if possible, and only when that fails, stop here. *)
Fixpoint repeat_greedy (c : ascii → bool) (lo : nat) (hi : option nat)
    (k : mstate → option R) (p : nat) (g : gmap nat (list ascii))
    (l : list ascii) : option R :=
  let stop := match lo with 0 => k (MState p l g) | S _ => None end in
  if exhausted hi then stop
  else match l with
       | a :: t =>
           if c a then
             match repeat_greedy c (Nat.pred lo) (decr hi) k (S p) g t with
             | Some r => Some r
             | None => stop
             end
           else stop
       | [] => stop
       end.

(** [exec r k st]: match [r] from [st], then go on with [k]; [None] makes
    the matcher backtrack. *)
Fixpoint exec (r : regex) (k : mstate → option R) (st : mstate) : option R :=
  match r with
  | Bol => if Nat.eqb (pos st) 0 then k st else None
  | Eol => if at_end (rest st) then k st else None
  | Chr c =>
      match rest st with
      | a :: _ => if Ascii.eqb a c then k (advance 1 st) else None
      | [] => None
      end
  | Lit s =>
      let w := chars s in
      if bool_decide (take (length w) (rest st) = w) then k (advance (length w) st) else None
  | Class c =>
      match rest st with
      | a :: _ => if c a then k (advance 1 st) else None
      | [] => None
      end
  | Repeat c lo hi => repeat_greedy c lo hi k (pos st) (groups st) (rest st)
  | Cat r1 r2 => exec r1 (exec r2 k) st
  | Alt r1 r2 =>
      match exec r1 k st with
      | Some res => Some res
      | None => exec r2 k st
      end
  | Group n r1 => exec r1 (λ st', k (capture n st st')) st
  end.

End Matcher.

(** [re.match(pattern, value)]: the captured groups, or [None]. *)
Definition re_match (pattern : regex) (value : string) : option (gmap nat (list ascii)) :=
  groups <$> exec pattern Some (MState 0 (chars value) ∅).

(** [match_result.group(n)] for a group that took part in the match. *)
Definition group (m : gmap nat (list ascii)) (n : nat) : string :=
  str (default [] (m !! n)).

(** *** What a pattern matches

    [matches r st st']: the pattern [r] can take the matcher from [st] to
    [st'].  This is the meaning of the patterns, without the search. *)
Inductive matches : regex → mstate → mstate → Prop :=
| m_bol l g : matches Bol (MState 0 l g) (MState 0 l g)
| m_eol p l g : at_end l = true → matches Eol (MState p l g) (MState p l g)
| m_chr c p t g : matches (Chr c) (MState p (c :: t) g) (MState (S p) t g)
| m_lit s p t g :
    matches (Lit s) (MState p (chars s ++ t) g) (MState (p + length (chars s)) t g)
| m_class c a p t g :
    c a = true → matches (Class c) (MState p (a :: t) g) (MState (S p) t g)
| m_repeat c lo hi txt p t g :
    lo ≤ length txt → within hi (length txt) → Forall (λ a, c a = true) txt →
    matches (Repeat c lo hi) (MState p (txt ++ t) g) (MState (p + length txt) t g)
| m_cat r1 r2 st st' st'' :
    matches r1 st st' → matches r2 st' st'' → matches (Cat r1 r2) st st''
| m_alt_l r1 r2 st st' : matches r1 st st' → matches (Alt r1 r2) st st'
| m_alt_r r1 r2 st st' : matches r2 st st' → matches (Alt r1 r2) st st'
| m_group n r p l g p' l' g' :
    matches r (MState p l g) (MState p' l' g') →
    matches (Group n r) (MState p l g) (MState p' l' (<[n := take (p' - p) l]> g')).

End Re.

(** ** [FrontendManager.parse_version_string] *)

Module Pattern.
Import PyStr Re.

Definition owner_tail (c : ascii) : bool := is_alnum c || Ascii.eqb c "-".
Definition repo_char (c : ascii) : bool :=
  is_alnum c || Ascii.eqb c "_" || Ascii.eqb c "." || Ascii.eqb c "-".
Definition is_v (c : ascii) : bool := Ascii.eqb c "v".

(** [\d+].  Among the code points of the model (below 256) the decimal
    digits are ['0'..'9']; the digits of other scripts, which [\d] matches
    as well on a [str], lie outside these strings. *)
Definition digits1 : regex := Repeat is_digit 1 None.

(** [[a-zA-Z0-9][a-zA-Z0-9-]{0,38}] *)
Definition OWNER : regex := Cat (Class is_alnum) (Repeat owner_tail 0 (Some 38)).

(** [[a-zA-Z0-9_.-]+] *)
Definition REPO : regex := Repeat repo_char 1 None.

(** [v?\d+\.\d+\.\d+|latest] *)
Definition VERSION : regex :=
  Alt (Cat (Repeat is_v 0 (Some 1))
      (Cat digits1 (Cat (Chr ".") (Cat digits1 (Cat (Chr ".") digits1)))))
      (Lit "latest").

(** [^([a-zA-Z0-9][a-zA-Z0-9-]{0,38})/([a-zA-Z0-9_.-]+)@(v?\d+\.\d+\.\d+|latest)$] *)
Definition VERSION_PATTERN : regex :=
  Cat Bol
 (Cat (Group 1 OWNER)
 (Cat (Chr "/")
 (Cat (Group 2 REPO)
 (Cat (Chr "@")
 (Cat (Group 3 VERSION)
      Eol))))).

(** The groups of a match with owner [o], repo [r] and version [v]. *)
Definition captured (o r v : list ascii) : gmap nat (list ascii) :=
  <[3 := v]> (<[2 := r]> (<[1 := o]> ∅)).

End Pattern.

Definition parse_version_string (value : string) : Res (string * string * string) :=
  match Re.re_match Pattern.VERSION_PATTERN value with
  | None => Raised (ArgumentTypeError ("Invalid version string: " +:+ value))
  | Some match_result =>
      Return (Re.group match_result 1, Re.group match_result 2, Re.group match_result 3)
  end.

(** *** The version specifier, as the specification words it

    [owner/repo@version]: an owner of 1 to 39 characters, alphanumeric or
    hyphen, the first alphanumeric; a repo of alphanumerics, underscore,
    dot and hyphen, at least one; a version that is [latest] or
    [MAJOR.MINOR.PATCH], three numbers, with an optional leading [v]. *)
Module VersionSpec.
Import PyStr.

Definition all_in (c : ascii → bool) (l : list ascii) : Prop := Forall (λ a, c a = true) l.

Definition alphanumeric_or_hyphen (c : ascii) : bool :=
  is_alnum c || bool_decide (c = "-"%char).

Definition alphanumeric_underscore_dot_hyphen (c : ascii) : bool :=
  is_alnum c || bool_decide (c ∈ ["_"; "."; "-"]%char).

Definition owner_shape (o : list ascii) : Prop :=
  ∃ a t, o = a :: t ∧ is_alnum a = true ∧ all_in alphanumeric_or_hyphen t ∧ length o ≤ 39.

Definition repo_shape (r : list ascii) : Prop :=
  r ≠ [] ∧ all_in alphanumeric_underscore_dot_hyphen r.

Definition number (d : list ascii) : Prop :=
  d ≠ [] ∧ all_in is_digit d.

Definition version_shape (v : list ascii) : Prop :=
  v = chars "latest"
  ∨ ∃ pre major minor patch,
      (pre = [] ∨ pre = ["v"%char]) ∧ number major ∧ number minor ∧ number patch
      ∧ v = pre ++ major ++ "."%char :: minor ++ "."%char :: patch.

Definition well_formed (value owner repo version : string) : Prop :=
  value = (owner +:+ "/" +:+ repo +:+ "@" +:+ version)%string
  ∧ owner_shape (chars owner) ∧ repo_shape (chars repo) ∧ version_shape (chars version).

Definition newline : string := String "010" "".

End VersionSpec.

(** ** The module-level [frontend_version]

    [tuple(map(int, comfyui_frontend_package.__version__.split(".")))], and
    [(0,)] when that raises.  The attribute belongs to another package: it
    is a string, or missing.  [int] is the builtin conversion, taken as it
    is: [None] where it raises. *)
Section FrontendVersion.
Variable int : string → option Z.

Definition frontend_version (version : option string) : list Z :=
  match version with
  | None => [0%Z]
  | Some s =>
      match mapM int (PyStr.split "." s) with
      | Some numbers => numbers
      | None => [0%Z]
      end
  end.

End FrontendVersion.

(** ** Data model *)

(** [class Asset(TypedDict)] declares only [url]; the code also reads the
    key ["name"], which an asset may therefore lack. *)
Record Asset := {
  asset_name : option string;
  asset_url : string
}.

Record Release := {
  id : Z;
  tag_name : string;
  name : string;
  prerelease : bool;
  created_at : string;
  published_at : string;
  body : string;
  assets : option (list Asset)          (* NotRequired *)
}.

(** What [extractall] does with an archive: it creates [entries] in the
    destination, in order, and then fails if the archive is [broken]
    (a damaged member; the entries before the damage stay on disk). *)
Record Archive := {
  entries : list string;
  broken : bool
}.

Record Request := {
  url : string;
  headers : list (string * string);
  allow_redirects : bool;
  timeout : N
}.

Inductive Payload :=
| JsonReleases (l : list Release)
| JsonRelease (r : Release)
| Zip (a : Archive)
| OtherBody.

Record Response := {
  status_code : N;
  links_next : option string;           (* response.links["next"]["url"], if any *)
  payload : Payload
}.

Inductive Reply :=
| Fails (msg : string)                  (* no response: connection error, timeout, bad URL *)
| Replies (r : Response).

Inductive Node :=
| RegFile
| Directory (listing : list string).

Inductive LogEntry :=
| LogInfo (msg : string)
| LogDebug (r : Release)
| LogError (fmt : string) (e : exn).

Record World := {
  fs : gmap string Node;
  requests : list Request;              (* oldest first *)
  log : list LogEntry                   (* oldest first *)
}.

Definition set_fs (f : gmap string Node → gmap string Node) (w : World) : World :=
  {| fs := f (fs w); requests := requests w; log := log w |}.
Definition add_request (r : Request) (w : World) : World :=
  {| fs := fs w; requests := requests w ++ [r]; log := log w |}.
Definition add_log (e : LogEntry) (w : World) : World :=
  {| fs := fs w; requests := requests w; log := log w ++ [e] |}.
Definition add_requests (l : list Request) (w : World) : World :=
  {| fs := fs w; requests := requests w ++ l; log := log w |}.

(** ** Computations *)

Inductive Outcome (S A : Type) :=
| Ret (a : A) (s : S)
| Exn (e : exn) (s : S)
| OutOfFuel.
Arguments Ret {S A} a s.
Arguments Exn {S A} e s.
Arguments OutOfFuel {S A}.

Definition M (S A : Type) : Type := S → Outcome S A.

#[global] Instance M_ret {S} : MRet (M S) := λ A a s, Ret a s.
#[global] Instance M_bind {S} : MBind (M S) := λ A B k m s,
  match m s with
  | Ret a s' => k a s'
  | Exn e s' => Exn e s'
  | OutOfFuel => OutOfFuel
  end.

Definition raise {S A} (e : exn) : M S A := λ s, Exn e s.
Definition out_of_fuel {S A} : M S A := λ _, OutOfFuel.
Definition gets {S A} (f : S → A) : M S A := λ s, Ret (f s) s.
Definition modify {S} (f : S → S) : M S unit := λ s, Ret tt (f s).
Definition lift_res {S A} (r : Res A) : M S A :=
  match r with Return a => mret a | Raised e => raise e end.

(** [try: body finally: handler].  An exception of the handler replaces
    the outcome of the body. *)
Definition try_finally {S A} (body : M S A) (handler : M S unit) : M S A := λ s,
  match body s with
  | Ret a s' =>
      match handler s' with
      | Ret _ s'' => Ret a s''
      | Exn e s'' => Exn e s''
      | OutOfFuel => OutOfFuel
      end
  | Exn e s' =>
      match handler s' with
      | Ret _ s'' => Exn e s''
      | Exn e' s'' => Exn e' s''
      | OutOfFuel => OutOfFuel
      end
  | OutOfFuel => OutOfFuel
  end.

(** [try: body except Exception as e: handler(e)] *)
Definition try_except {S A} (body : M S A) (handler : exn → M S A) : M S A := λ s,
  match body s with
  | Ret a s' => Ret a s'
  | Exn e s' => handler e s'
  | OutOfFuel => OutOfFuel
  end.

(** ** Logging, filesystem, HTTP *)

Definition logging (e : LogEntry) : M World unit := modify (add_log e).

(** *** Paths

    Which directories stand above a path, and what its last component
    is, depends on the path syntax of the platform, like the join; they
    are taken as given. *)
Class Paths := {
  (** the directories above a path, nearest first: the heads that
      [os.path.split] gives one after another.  The root is left out: it
      always exists. *)
  parents : string → list string;
  (** [os.path.basename] *)
  basename : string → string
}.

Module os.
Section Calls.
Context {paths : Paths}.

Definition path_exists (p : string) : M World bool :=
  gets (λ w, bool_decide (is_Some (fs w !! p))).

Definition path_isdir (p : string) : M World bool :=
  gets (λ w, match fs w !! p with Some (Directory _) => true | _ => false end).

(** The error of a system call on a path that does not exist, given the
    directories above it: [ENOTDIR] when the nearest one that exists is a
    regular file, [ENOENT] otherwise. *)
Fixpoint missing (ups : list string) (m : gmap string Node) : os_error :=
  match ups with
  | [] => FileNotFoundError
  | head :: ups' =>
      match m !! head with
      | Some RegFile => NotADirectoryError
      | Some (Directory _) => FileNotFoundError
      | None => missing ups' m
      end
  end.

(** [os.mkdir(p)], the directories above [p] being [ups]: the new
    directory is empty and is entered in the listing of its parent. *)
Definition mkdir_at (ups : list string) (p : string) : M World unit := λ w,
  match fs w !! p with
  | Some _ => Exn (OSError FileExistsError p) w
  | None =>
      match ups with
      | [] => Ret tt (set_fs (<[p := Directory []]>) w)
      | head :: ups' =>
          match fs w !! head with
          | Some (Directory l) =>
              Ret tt (set_fs (λ m, <[p := Directory []]>
                                     (<[head := Directory (l ++ [basename p])]> m)) w)
          | Some RegFile => Exn (OSError NotADirectoryError p) w
          | None => Exn (OSError (missing ups' (fs w)) p) w
          end
      end
  end.

Definition mkdir (p : string) : M World unit := mkdir_at (parents p) p.

(** [os.makedirs(name, exist_ok=True)]:
    [[
      head, tail = path.split(name)
      if head and tail and not path.exists(head):
          try: makedirs(head, exist_ok=exist_ok)
          except FileExistsError: pass
      try: mkdir(name, mode)
      except OSError:
          if not exist_ok or not path.isdir(name): raise
    ]]
    by recursion on the directories above [name]. *)
Fixpoint makedirs_from (ups : list string) (name : string) : M World unit :=
  match ups with
  | [] => mret tt
  | head :: ups' =>
      found ← path_exists head;
      if (found : bool) then mret tt
      else
        try_except (makedirs_from ups' head)
          (λ e, match e with
                | OSError FileExistsError _ => mret tt
                | _ => raise e
                end)
  end ;;
  try_except (mkdir_at ups name)
    (λ e, isdir ← path_isdir name; if (isdir : bool) then mret tt else raise e).

Definition makedirs (name : string) : M World unit := makedirs_from (parents name) name.

Definition listdir (p : string) : M World (list string) := λ w,
  match fs w !! p with
  | Some (Directory l) => Ret l w
  | Some RegFile => Exn (OSError NotADirectoryError p) w
  | None => Exn (OSError (missing (parents p) (fs w)) p) w
  end.

(** The filesystem without the directory [p]: its entry leaves the
    listing of its parent. *)
Definition unlinked (p : string) (m : gmap string Node) : gmap string Node :=
  delete p
    match parents p with
    | [] => m
    | head :: _ =>
        match m !! head with
        | Some (Directory l) =>
            <[head := Directory (filter (λ n, n ≠ basename p) l)]> m
        | _ => m
        end
    end.

Definition rmdir (p : string) : M World unit := λ w,
  match fs w !! p with
  | Some (Directory []) => Ret tt (set_fs (unlinked p) w)
  | Some (Directory (_ :: _)) => Exn (OSError DirectoryNotEmpty p) w
  | Some RegFile => Exn (OSError NotADirectoryError p) w
  | None => Exn (OSError (missing (parents p) (fs w)) p) w
  end.

End Calls.
End os.

Module zipfile.
Section Calls.
Context {paths : Paths}.

Definition add_entry (n : string) (l : list string) : list string :=
  if bool_decide (n ∈ l) then l else l ++ [n].

(** One member written below [dest].  A missing [dest] is made first,
    with the directories above it ([os.makedirs], as [_extract_member]
    does for the directory of its target).  The members themselves are
    recorded as entries of [dest]. *)
Definition write_member (dest n : string) : M World unit :=
  found ← os.path_exists dest;
  (if (found : bool) then mret tt else os.makedirs dest) ;;
  ((λ w, match fs w !! dest with
         | Some (Directory l) => Ret tt (set_fs (<[dest := Directory (add_entry n l)]>) w)
         | Some RegFile => Exn (OSError NotADirectoryError dest) w
         | None => Exn (OSError FileNotFoundError dest) w
         end) : M World unit).

Fixpoint write_members (dest : string) (ns : list string) : M World unit :=
  match ns with
  | [] => mret tt
  | n :: ns' => write_member dest n ;; write_members dest ns'
  end.

(** [zip_ref.extractall(dest)] *)
Definition extractall (a : Archive) (dest : string) : M World unit :=
  write_members dest (entries a) ;;
  if broken a then raise BadZipFile else mret tt.

(** [zipfile.ZipFile(tmp_file, "r")] on the downloaded bytes. *)
Definition ZipFile (p : Payload) : M World Archive :=
  match p with
  | Zip a => mret a
  | _ => raise BadZipFile
  end.

End Calls.
End zipfile.

Definition REQUEST_TIMEOUT : N := 10.

Definition is_error_status (s : N) : bool := (400 <=? s)%N && (s <? 600)%N.

(** [response.raise_for_status()] *)
Definition raise_for_status {S} (u : string) (r : Response) : M S unit :=
  if is_error_status (status_code r) then raise (HTTPError (status_code r) u) else mret tt.

(** [response.json()] where the code goes on to use the value as a list of
    releases, and as one release.  A body that is not JSON (a zip archive,
    other bytes) makes [json()] raise.  A JSON body of the other shape is
    not what either endpoint serves; the code would take it as it comes
    (it has no check of the shape), which the typed results here cannot
    express: the properties below are stated for bodies of the expected
    shape. *)
Definition json_releases {S} (r : Response) : M S (list Release) :=
  match payload r with JsonReleases l => mret l | _ => raise JSONDecodeError end.

Definition json_release {S} (r : Response) : M S Release :=
  match payload r with JsonRelease x => mret x | _ => raise JSONDecodeError end.

(** ** [FrontEndProvider] *)

(** The dataclass fields, and the two slots that [@cached_property] adds to
    the instance once the property has been computed. *)
Record FrontEndProvider := {
  owner : string;
  repo : string;
  all_releases_cache : option (list Release);
  latest_release_cache : option Release
}.

(** [FrontEndProvider(owner, repo)] *)
Definition new_provider (o r : string) : FrontEndProvider :=
  {| owner := o; repo := r; all_releases_cache := None; latest_release_cache := None |}.

Definition folder_name (self : FrontEndProvider) : string :=
  owner self +:+ "_" +:+ repo self.

Definition release_url (self : FrontEndProvider) : string :=
  "https://api.github.com/repos/" +:+ owner self +:+ "/" +:+ repo self +:+ "/releases".

Definition store_all_releases (l : list Release) (self : FrontEndProvider) : FrontEndProvider :=
  {| owner := owner self; repo := repo self;
     all_releases_cache := Some l; latest_release_cache := latest_release_cache self |}.

Definition store_latest_release (r : Release) (self : FrontEndProvider) : FrontEndProvider :=
  {| owner := owner self; repo := repo self;
     all_releases_cache := all_releases_cache self; latest_release_cache := Some r |}.

(** The state of a method call: the instance and the world. *)
Record PState := {
  self : FrontEndProvider;
  world : World
}.

(** [@cached_property]: the stored value if there is one; otherwise the
    getter runs and its value, when it returns one, is stored. *)
Definition cached_property {A} (slot : FrontEndProvider → option A)
    (store : A → FrontEndProvider → FrontEndProvider)
    (getter : FrontEndProvider → M World A) : M PState A := λ st,
  match slot (self st) with
  | Some a => Ret a st
  | None =>
      match getter (self st) (world st) with
      | Ret a w => Ret a {| self := store a (self st); world := w |}
      | Exn e w => Exn e {| self := self st; world := w |}
      | OutOfFuel => OutOfFuel
      end
  end.

(** A method call on [p] from code that holds the world only. *)
Definition call {A} (p : FrontEndProvider) (m : M PState A) : M World A := λ w,
  match m {| self := p; world := w |} with
  | Ret a st => Ret a (world st)
  | Exn e st => Exn e (world st)
  | OutOfFuel => OutOfFuel
  end.

Definition GET (u : string) : Request :=
  {| url := u; headers := []; allow_redirects := true; timeout := REQUEST_TIMEOUT |}.

Definition GET_octet_stream (u : string) : Request :=
  {| url := u; headers := [("Accept", "application/octet-stream")];
     allow_redirects := true; timeout := REQUEST_TIMEOUT |}.

Definition tag_matches (version : string) (release : Release) : bool :=
  bool_decide (tag_name release ∈ [version; "v" +:+ version]).

(** The [for] loop of [download_release_asset_zip]: the value of
    [asset_url] after it, [None] being Python's [None]. *)
Fixpoint scan_assets (l : list Asset) : Res (option string) :=
  match l with
  | [] => Return None
  | asset :: l' =>
      match asset_name asset with
      | None => Raised (KeyError "name")
      | Some n =>
          if String.eqb n "dist.zip" then Return (Some (asset_url asset))
          else scan_assets l'
      end
  end.

Section Program.
Import PyStr.
Context {paths : Paths}.

(** [comfy.cli_args.DEFAULT_VERSION_STRING] and the two class attributes
    of [FrontendManager], which are computed from the installation. *)
Variable DEFAULT_VERSION_STRING : string.
Variable DEFAULT_FRONTEND_PATH : string.
Variable CUSTOM_FRONTENDS_ROOT : string.

(** [str(Path(a) / b)] *)
Variable joinpath : string → string → string.

(** The remote side: its reply to a request, given the requests that
    were issued before. *)
Variable server : list Request → Request → Reply.

(** [requests.get] *)
Definition requests_get (r : Request) : M World Response := λ w,
  match server (requests w) r with
  | Fails msg => Exn (RequestException msg) (add_request r w)
  | Replies resp => Ret resp (add_request r w)
  end.

(** The [while api_url:] loop of [all_releases]. *)
Fixpoint all_releases_loop (fuel : nat) (api_url : option string)
    (releases : list Release) : M World (list Release) :=
  match api_url with
  | None => mret releases
  | Some u =>
      if truthy u then
        match fuel with
        | 0 => out_of_fuel
        | S fuel' =>
            response ← requests_get (GET u);
            raise_for_status u response ;;
            page ← json_releases response;
            all_releases_loop fuel' (links_next response) (releases ++ page)
        end
      else mret releases
  end.

Definition all_releases (fuel : nat) : M PState (list Release) :=
  cached_property all_releases_cache store_all_releases
    (λ self, all_releases_loop fuel (Some (release_url self)) []).

Definition latest_release : M PState Release :=
  cached_property latest_release_cache store_latest_release
    (λ self,
       let latest_release_url := release_url self +:+ "/latest" in
       response ← requests_get (GET latest_release_url);
       raise_for_status latest_release_url response ;;
       json_release response).

Definition version_not_found (version : string) : exn :=
  ValueError ("Version " +:+ version +:+ " not found in releases").

Definition get_release (fuel : nat) (version : string) : M PState Release :=
  if String.eqb version "latest" then latest_release
  else
    releases ← all_releases fuel;
    match find (tag_matches version) releases with
    | Some release => mret release
    | None => raise (version_not_found version)
    end.

Definition dist_zip_not_found : exn :=
  ValueError "dist.zip not found in the release assets".

(** The temporary file of the source is anonymous and is gone when the
    function returns; it is not part of the filesystem of the model. *)
Definition download_release_asset_zip (release : Release) (destination_path : string)
    : M World unit :=
  asset_url ← lift_res (scan_assets (default [] (assets release)));
  match asset_url with
  | Some u =>
      if truthy u then
        response ← requests_get (GET_octet_stream u);
        raise_for_status u response ;;
        zip_ref ← zipfile.ZipFile (payload response);
        zipfile.extractall zip_ref destination_path
      else raise dist_zip_not_found
  | None => raise dist_zip_not_found
  end.

Definition semantic_version (release : Release) : string := lstrip "v" (tag_name release).

Definition cache_path (folder version : string) : string :=
  joinpath (joinpath CUSTOM_FRONTENDS_ROOT folder) version.

Definition using_existing_copy (repo_owner repo_name version : string) : LogEntry :=
  LogInfo ("Using existing copy of specific frontend version tag: "
           +:+ repo_owner +:+ "/" +:+ repo_name +:+ "@" +:+ version).

Definition initializing (repo_owner repo_name version : string) : LogEntry :=
  LogInfo ("Initializing frontend: " +:+ repo_owner +:+ "/" +:+ repo_name
           +:+ "@" +:+ version +:+ ", requesting version details from GitHub...").

Definition downloading (folder version web_root : string) : LogEntry :=
  LogInfo ("Downloading frontend(" +:+ folder +:+ ") version(" +:+ version
           +:+ ") to (" +:+ web_root +:+ ")").

(** The cache probe: [Some path] when [init_frontend_unsafe] returns
    from inside it. *)
Definition probe_cache (repo_owner repo_name version : string) : M World (option string) :=
  if startswith "v" version then
    let expected_path := cache_path (repo_owner +:+ "_" +:+ repo_name) (lstrip "v" version) in
    found ← os.path_exists expected_path;
    if (found : bool) then
      logging (using_existing_copy repo_owner repo_name version) ;;
      mret (Some expected_path)
    else mret None
  else mret None.

(** The download step: [if not os.path.exists(web_root): try ... finally ...]. *)
Definition download_step (provider : FrontEndProvider) (release : Release)
    (web_root : string) : M World unit :=
  found ← os.path_exists web_root;
  if (found : bool) then mret tt
  else
    try_finally
      (os.makedirs web_root ;;
       logging (downloading (folder_name provider) (semantic_version release) web_root) ;;
       logging (LogDebug release) ;;
       download_release_asset_zip release web_root)
      (listing ← os.listdir web_root;
       match listing with
       | [] => os.rmdir web_root
       | _ :: _ => mret tt
       end).

Definition web_root_of (provider : FrontEndProvider) (release : Release) : string :=
  cache_path (folder_name provider) (semantic_version release).

Definition init_frontend_unsafe (fuel : nat) (version_string : string)
    (provider : option FrontEndProvider) : M World string :=
  if String.eqb version_string DEFAULT_VERSION_STRING then mret DEFAULT_FRONTEND_PATH
  else
    '(repo_owner, repo_name, version) ← lift_res (parse_version_string version_string);
    cached ← probe_cache repo_owner repo_name version;
    match cached with
    | Some expected_path => mret expected_path
    | None =>
        logging (initializing repo_owner repo_name version) ;;
        let provider := default (new_provider repo_owner repo_name) provider in
        release ← call provider (get_release fuel version);
        let web_root := web_root_of provider release in
        download_step provider release web_root ;;
        mret web_root
    end.

Definition init_frontend (fuel : nat) (version_string : string) : M World string :=
  try_except (init_frontend_unsafe fuel version_string None)
    (λ e,
       logging (LogError "Failed to initialize frontend: %s" e) ;;
       logging (LogInfo "Falling back to the default frontend.") ;;
       mret DEFAULT_FRONTEND_PATH).

(** The part of [init_frontend_unsafe] after a missed cache probe. *)
Definition resolve_and_download (fuel : nat) (p : FrontEndProvider) (version : string)
    : M World string := λ w,
  match call p (get_release fuel version) w with
  | Ret release w2 =>
      match download_step p release (web_root_of p release) w2 with
      | Ret _ w3 => Ret (web_root_of p release) w3
      | Exn e w3 => Exn e w3
      | OutOfFuel => OutOfFuel
      end
  | Exn e w2 => Exn e w2
  | OutOfFuel => OutOfFuel
  end.

(** The first request of [get_release] on a provider that has stored
    nothing yet. *)
Definition first_request (p : FrontEndProvider) (version : string) : Request :=
  GET (if String.eqb version "latest" then release_url p +:+ "/latest" else release_url p).

(** *** The pagination a server offers

    [crawl hist u pages e]: starting at [u] after the requests [hist], the
    server serves [pages] (each with the URL it was fetched from), linked
    by their [next] links, and the walk ends as [e] says. *)

Inductive ending :=
| Done                                  (* a page without a link to follow *)
| Failed (u : string) (e : exn).        (* the request for [u] raised [e] *)

(** The link the loop follows: a [next] link whose URL is not empty. *)
Definition followed (next : option string) : option string :=
  match next with
  | Some u => if truthy u then Some u else None
  | None => None
  end.

Inductive crawl : list Request → string → list (string * list Release) → ending → Prop :=
| crawl_no_reply hist u msg :
    truthy u = true →
    server hist (GET u) = Fails msg →
    crawl hist u [] (Failed u (RequestException msg))
| crawl_error_status hist u resp :
    truthy u = true →
    server hist (GET u) = Replies resp →
    is_error_status (status_code resp) = true →
    crawl hist u [] (Failed u (HTTPError (status_code resp) u))
| crawl_other_body hist u resp :
    truthy u = true →
    server hist (GET u) = Replies resp →
    is_error_status (status_code resp) = false →
    (∀ l, payload resp ≠ JsonReleases l) →
    crawl hist u [] (Failed u JSONDecodeError)
| crawl_last hist u resp page :
    truthy u = true →
    server hist (GET u) = Replies resp →
    is_error_status (status_code resp) = false →
    payload resp = JsonReleases page →
    followed (links_next resp) = None →
    crawl hist u [(u, page)] Done
| crawl_next hist u resp page u' pages e :
    truthy u = true →
    server hist (GET u) = Replies resp →
    is_error_status (status_code resp) = false →
    payload resp = JsonReleases page →
    followed (links_next resp) = Some u' →
    crawl (hist ++ [GET u]) u' pages e →
    crawl hist u ((u, page) :: pages) e.

End Program.

(** ** Auxiliary notions used in the statements *)

Definition final_world {A} (o : Outcome World A) : option World :=
  match o with
  | Ret _ w => Some w
  | Exn _ w => Some w
  | OutOfFuel => None
  end.

(** The state in which a computation ends, by return or by exception. *)
Definition final_state {S A} (o : Outcome S A) : option S :=
  match o with
  | Ret _ s => Some s
  | Exn _ s => Some s
  | OutOfFuel => None
  end.

(** An asset that carries a name, and the name is not [dist.zip]. *)
Definition named_other (a : Asset) : Prop :=
  ∃ n, asset_name a = Some n ∧ n ≠ "dist.zip"%string.

(** The tag of [r] is [version] or ["v" + version]. *)
Definition matches_tag (version : string) (r : Release) : Prop :=
  tag_name r = version ∨ tag_name r = ("v" +:+ version)%string.

Definition add_entries (l ns : list string) : list string :=
  foldl (λ acc n, zipfile.add_entry n acc) l ns.

(** ** A concrete installation, for closed examples *)

Module Example.
Definition joinpath (a b : string) : string := a +:+ "/" +:+ b.

(** POSIX paths: the directory of a path is what stands before its last
    ["/"], its name what stands after it. *)
Fixpoint before_slash (reversed : list ascii) : list ascii :=
  match reversed with
  | [] => []
  | c :: t => if Ascii.eqb c "/" then t else before_slash t
  end.

Fixpoint after_slash (reversed : list ascii) : list ascii :=
  match reversed with
  | [] => []
  | c :: t => if Ascii.eqb c "/" then [] else c :: after_slash t
  end.

Definition dirname (p : string) : string :=
  PyStr.str (rev (before_slash (rev (PyStr.chars p)))).

Fixpoint ancestors (n : nat) (p : string) : list string :=
  match n with
  | 0 => []
  | S n' => if String.eqb (dirname p) "" then [] else dirname p :: ancestors n' (dirname p)
  end.

#[export] Instance posix : Paths := {|
  parents p := ancestors (String.length p) p;
  basename p := PyStr.str (rev (after_slash (rev (PyStr.chars p))))
|}.
Definition ROOT : string := "/cache".
Definition BUNDLED : string := "/bundled/static".
Definition DEFAULT : string := "comfyanonymous/ComfyUI@latest".

Definition release (tag : string) (a : option (list Asset)) : Release :=
  {| id := 1; tag_name := tag; name := tag; prerelease := false;
     created_at := ""; published_at := ""; body := ""; assets := a |}.

Definition asset (n : option string) (u : string) : Asset :=
  {| asset_name := n; asset_url := u |}.

Definition response (status : N) (next : option string) (p : Payload) : Response :=
  {| status_code := status; links_next := next; payload := p |}.

Definition empty_world : World := {| fs := ∅; requests := []; log := [] |}.

Definition world_with (p : string) (n : Node) : World :=
  {| fs := {[ p := n ]}; requests := []; log := [] |}.

Definition widgets : FrontEndProvider := new_provider "acme" "widgets".

(** A server that answers every request with status 500. *)
Definition server_500 : list Request → Request → Reply :=
  λ _ _, Replies (response 500 None OtherBody).

Definition bundle : Archive := {| entries := ["index.html"; "assets"]; broken := false |}.

Definition dist_url : string := "https://example.org/acme/widgets/dist.zip".

Definition r123 : Release :=
  release "v1.2.3" (Some [asset (Some "source.tar.gz") "https://example.org/src";
                          asset (Some "dist.zip") dist_url]).
Definition r124 : Release := release "v1.2.4" None.
Definition r200 : Release := release "v2.0.0" (Some []).
Definition rvv : Release := release "vv1.0.0" None.

Definition page2_url : string := "https://api.github.com/repositories/1/releases?page=2".
Definition page3_url : string := "https://api.github.com/repositories/1/releases?page=3".

(** A server with three pages of releases for acme/widgets, a latest
    release, and the bundle of release v1.2.3. *)
Definition server_widgets : list Request → Request → Reply := λ _ req,
  if String.eqb (url req) (release_url widgets) then
    Replies (response 200 (Some page2_url) (JsonReleases [r200; r124]))
  else if String.eqb (url req) page2_url then
    Replies (response 200 (Some page3_url) (JsonReleases [r123]))
  else if String.eqb (url req) page3_url then
    Replies (response 200 None (JsonReleases [rvv]))
  else if String.eqb (url req) (release_url widgets +:+ "/latest") then
    Replies (response 200 None (JsonRelease r200))
  else if String.eqb (url req) dist_url then
    Replies (response 200 None (Zip bundle))
  else Replies (response 404 None OtherBody).

(** A release tagged without "v", and a server that lists only it. *)
Definition r_bare : Release := release "1.2.3" None.

Definition server_bare : list Request → Request → Reply := λ _ req,
  if String.eqb (url req) (release_url widgets) then
    Replies (response 200 None (JsonReleases [r_bare]))
  else Replies (response 404 None OtherBody).

(** A server whose first page carries a [next] link with an empty URL. *)
Definition server_empty_link : list Request → Request → Reply := λ _ req,
  Replies (response 200 (Some "") (JsonReleases [r124])).

(** A server that lists release v1.2.3 and answers 500 to anything else. *)
Definition server_no_bundle : list Request → Request → Reply := λ _ req,
  if String.eqb (url req) (release_url widgets) then
    Replies (response 200 None (JsonReleases [r123]))
  else Replies (response 500 None OtherBody).

(** The releases of [server_widgets] in the order listed, and the world
    after they have been fetched from [empty_world]. *)
Definition listed : list Release := [r200; r124; r123; rvv].

Definition crawled : World :=
  {| fs := ∅;
     requests := [GET (release_url widgets); GET page2_url; GET page3_url];
     log := [] |}.

(** A server that answers the list of releases with status 300. *)
Definition server_300 : list Request → Request → Reply := λ _ req,
  Replies (response 300 None (JsonReleases [r124])).

(** A regular file stands where the cache root should be. *)
Definition blocked_world : World := world_with "/cache" RegFile.

(** A conversion of unsigned decimal numerals, for examples. *)
Definition decimal (s : string) : option Z :=
  match PyStr.chars s with
  | [] => None
  | l =>
      if forallb PyStr.is_digit l
      then Some (fold_left (λ n c, 10 * n + (Z.of_N (N_of_ascii c) - 48))%Z l 0%Z)
      else None
  end.

End Example.

(** * Properties *)

(** The examples of the specification. *)
Example parse_v : parse_version_string "foo/bar@v1.2.3" = Return ("foo", "bar", "v1.2.3")%string.
Proof. vm_compute. reflexivity. Qed.
Example parse_bare : parse_version_string "foo/bar@1.2.3" = Return ("foo", "bar", "1.2.3")%string.
Proof. vm_compute. reflexivity. Qed.
Example parse_short : parse_version_string "foo/bar@v1.2"
  = Raised (ArgumentTypeError "Invalid version string: foo/bar@v1.2").
Proof. vm_compute. reflexivity. Qed.
Example parse_latest : parse_version_string "Comfy-Org/ComfyUI_frontend@latest"
  = Return ("Comfy-Org", "ComfyUI_frontend", "latest")%string.
Proof. vm_compute. reflexivity. Qed.

(** ** Strings *)

Section StringFacts.
Import PyStr.

Lemma str_chars s : str (chars s) = s.
Proof. apply string_of_list_ascii_of_string. Qed.

Lemma chars_str l : chars (str l) = l.
Proof. apply list_ascii_of_string_of_list_ascii. Qed.

Lemma str_app a b : str (a ++ b) = (str a +:+ str b)%string.
Proof. induction a as [|c a IH]; simpl; [done|]. unfold str in *. simpl. by rewrite IH. Qed.

Lemma chars_app a b : chars (a +:+ b) = chars a ++ chars b.
Proof. induction a as [|c a IH]; simpl; [done|]. unfold chars in *. simpl. by rewrite IH. Qed.

Lemma chars_inj a b : chars a = chars b → a = b.
Proof. intros H. by rewrite <- (str_chars a), <- (str_chars b), H. Qed.

Lemma in_v (a : ascii) : a ∈ ["v"%char] ↔ a = "v"%char.
Proof. rewrite elem_of_cons, elem_of_nil. tauto. Qed.

Lemma lstrip_v_split l : ∃ n, l = replicate n "v"%char ++ lstrip_chars ["v"%char] l.
Proof.
  induction l as [|a l [n IH]]; simpl; [by exists 0|].
  case_bool_decide as Ha.
  - apply in_v in Ha as ->. exists (S n). simpl. by rewrite <- IH.
  - by exists 0.
Qed.

Lemma lstrip_v_head l a t : lstrip_chars ["v"%char] l = a :: t → a ≠ "v"%char.
Proof.
  induction l as [|b l IH]; simpl; [done|].
  case_bool_decide as Hb; [done|]. intros [= -> ->]. by rewrite in_v in Hb.
Qed.

Lemma startswith_v_cons a t : startswith "v" (str (a :: t)) = Ascii.eqb "v" a.
Proof.
  unfold startswith, str. cbn [string_of_list_ascii String.prefix].
  destruct (ascii_dec "v" a) as [<-|Hne].
  - by destruct (string_of_list_ascii t).
  - symmetry. by apply Ascii.eqb_neq.
Qed.

Lemma lstrip_v_no_leading_v s : startswith "v" (lstrip "v" s) = false.
Proof.
  unfold lstrip. change (chars "v") with ["v"%char].
  destruct (lstrip_chars ["v"%char] (chars s)) as [|a t] eqn:H; [done|].
  rewrite startswith_v_cons. apply Ascii.eqb_neq. intros <-.
  by apply lstrip_v_head in H.
Qed.

Lemma lstrip_v_prefix s :
  ∃ n, s = (str (replicate n "v"%char) +:+ lstrip "v" s)%string.
Proof.
  unfold lstrip. change (chars "v") with ["v"%char].
  destruct (lstrip_v_split (chars s)) as [n Hn]. exists n.
  by rewrite <- str_app, <- Hn, str_chars.
Qed.

Lemma lstrip_v_removeprefix s :
  startswith "vv" s = false → lstrip "v" s = removeprefix "v" s.
Proof.
  destruct s as [|a s]; [done|].
  unfold lstrip, removeprefix, startswith.
  change (chars "v") with ["v"%char]. change (chars (String a s)) with (a :: chars s).
  cbn [String.prefix lstrip_chars drop_prefix].
  destruct (ascii_dec "v" a) as [<-|Hne].
  - rewrite bool_decide_eq_true_2 by (by apply in_v). rewrite Ascii.eqb_refl.
    intros Hp. destruct s as [|b s]; [done|].
    change (chars (String b s)) with (b :: chars s).
    cbn [String.prefix lstrip_chars] in *.
    destruct (ascii_dec "v" b) as [<-|Hne]; [by destruct s|].
    rewrite bool_decide_eq_false_2; [done|]. rewrite in_v. congruence.
  - intros _. rewrite bool_decide_eq_false_2 by (rewrite in_v; congruence).
    rewrite (proj2 (Ascii.eqb_neq _ _) Hne). apply (str_chars (String a s)).
Qed.

End StringFacts.

(** ** The matcher and the meaning of patterns *)

Section Engine.
Import PyStr Re.
Context {R : Type}.
Implicit Types (k : mstate → option R) (l t txt : list ascii).

Lemma repeat_greedy_sound c lo hi k p g l res :
  repeat_greedy c lo hi k p g l = Some res →
  ∃ txt t, l = txt ++ t ∧ lo ≤ length txt ∧ within hi (length txt)
           ∧ Forall (λ a, c a = true) txt
           ∧ k (MState (p + length txt) t g) = Some res.
Proof.
  assert (Hstop : ∀ lo hi p l,
    match lo with 0 => k (MState p l g) | S _ => None end = Some res →
    ∃ txt t, l = txt ++ t ∧ lo ≤ length txt ∧ within hi (length txt)
             ∧ Forall (λ a, c a = true) txt
             ∧ k (MState (p + length txt) t g) = Some res).
  { intros [|lo'] hi' p' l' H; [|done]. exists [], l'. simpl. rewrite Nat.add_0_r.
    repeat split; [lia| |done..]. destruct hi'; simpl; lia. }
  revert lo hi p. induction l as [|a l IH]; intros lo hi p; simpl.
  - destruct (exhausted hi); apply Hstop.
  - destruct (exhausted hi) eqn:Hex; [apply Hstop|].
    destruct (c a) eqn:Hca; [|apply Hstop].
    destruct (repeat_greedy c (Nat.pred lo) (decr hi) k (S p) g l) as [res'|] eqn:Hrec;
      [|apply Hstop].
    intros [= ->]. apply IH in Hrec as (txt & t & -> & Hlo & Hhi & Hall & Hk).
    exists (a :: txt), t. simpl. rewrite Nat.add_succ_r. repeat split; [lia| |by constructor|done].
    destruct hi as [[|h]|]; simpl in *; [done|lia|done].
Qed.

Lemma repeat_greedy_complete c lo hi k p g txt t :
  lo ≤ length txt → within hi (length txt) → Forall (λ a, c a = true) txt →
  is_Some (k (MState (p + length txt) t g)) →
  is_Some (repeat_greedy c lo hi k p g (txt ++ t)).
Proof.
  revert lo hi p. induction txt as [|a txt IH]; intros lo hi p Hlo Hhi Hall Hk; simpl in *.
  - rewrite Nat.add_0_r in Hk. assert (lo = 0) as -> by lia.
    destruct t as [|b t]; simpl; [by destruct (exhausted hi)|].
    destruct (exhausted hi); [done|]. destruct (c b); [|done].
    by destruct (repeat_greedy c 0 (decr hi) k (S p) g t).
  - apply Forall_cons in Hall as [Ha Hall]. rewrite Ha.
    assert (exhausted hi = false) as -> by (destruct hi as [[|h]|]; simpl in *; [lia|done..]).
    rewrite Nat.add_succ_r in Hk.
    destruct (IH (Nat.pred lo) (decr hi) (S p)) as [res Hres]; [lia| |done..|by rewrite Hres].
    destruct hi as [h|]; simpl in *; lia.
Qed.

End Engine.

Section EngineCorrect.
Import PyStr Re.

Lemma exec_sound {R} r (k : mstate → option R) st res :
  exec r k st = Some res → ∃ st', matches r st st' ∧ k st' = Some res.
Proof.
  revert R k st res.
  induction r as [| |c|s|c|c lo hi|r1 IH1 r2 IH2|r1 IH1 r2 IH2|n r IH];
    intros R k [p l g] res; simpl.
  - destruct (Nat.eqb_spec p 0) as [->|]; [|done]. intros H. eexists. split; [constructor|done].
  - destruct (at_end l) eqn:He; [|done]. intros H. eexists. split; [by constructor|done].
  - destruct l as [|a t]; [done|]. destruct (Ascii.eqb_spec a c) as [->|]; [|done].
    unfold advance. simpl. rewrite Nat.add_1_r, drop_0. intros H.
    eexists. split; [constructor|done].
  - case_bool_decide as Hw; [|done]. unfold advance. simpl. intros H.
    exists (MState (p + length (chars s)) (drop (length (chars s)) l) g). split; [|done].
    rewrite <- (take_drop (length (chars s)) l) at 1. rewrite Hw. constructor.
  - destruct l as [|a t]; [done|]. destruct (c a) eqn:Hc; [|done].
    unfold advance. simpl. rewrite Nat.add_1_r, drop_0. intros H.
    eexists. split; [by constructor|done].
  - intros H. apply repeat_greedy_sound in H as (txt & t & -> & Hlo & Hhi & Hall & Hk).
    eexists. split; [by constructor|done].
  - intros H. apply IH1 in H as (st1 & H1 & H). apply IH2 in H as (st2 & H2 & H).
    exists st2. split; [by econstructor|done].
  - destruct (exec r1 k (MState p l g)) as [res'|] eqn:H1.
    + intros [= ->]. apply IH1 in H1 as (st1 & H1 & H). exists st1. split; [by apply m_alt_l|done].
    + intros H. apply IH2 in H as (st2 & H2 & H). exists st2. split; [by apply m_alt_r|done].
  - intros H. apply IH in H as ([p' l' g'] & H1 & H).
    eexists. split; [apply m_group, H1|done].
Qed.

Lemma exec_complete {R} r st st' (k : mstate → option R) :
  matches r st st' → is_Some (k st') → is_Some (exec r k st).
Proof.
  intros Hm. revert R k.
  induction Hm as [l g|p l g He|c p t g|s p t g|c a p t g Hc|c lo hi txt p t g Hlo Hhi Hall
                   |r1 r2 st st' st'' _ IH1 _ IH2|r1 r2 st st' _ IH|r1 r2 st st' _ IH
                   |n r p l g p' l' g' _ IH]; intros R k Hk; simpl.
  - done.
  - by rewrite He.
  - rewrite Ascii.eqb_refl. unfold advance. simpl. by rewrite Nat.add_1_r, drop_0.
  - rewrite bool_decide_eq_true_2 by apply take_app_length.
    unfold advance. simpl. by rewrite drop_app_length.
  - rewrite Hc. unfold advance. simpl. by rewrite Nat.add_1_r, drop_0.
  - by apply repeat_greedy_complete.
  - apply IH1, IH2, Hk.
  - destruct (IH R k Hk) as [x ->]. by eexists.
  - destruct (exec r1 k st); [by eexists|]. by apply IH.
  - by apply IH.
Qed.

End EngineCorrect.

(** ** The version pattern *)

Section VersionPattern.
Import PyStr Re Pattern VersionSpec.

Lemma inv_bol p l g st' : matches Bol (MState p l g) st' → p = 0 ∧ st' = MState 0 l g.
Proof. by inversion 1. Qed.

Lemma inv_eol p l g st' : matches Eol (MState p l g) st' → at_end l = true ∧ st' = MState p l g.
Proof. by inversion 1. Qed.

Lemma inv_chr c p l g st' :
  matches (Chr c) (MState p l g) st' → ∃ t, l = c :: t ∧ st' = MState (S p) t g.
Proof. inversion 1. by eexists. Qed.

Lemma inv_lit s p l g st' :
  matches (Lit s) (MState p l g) st' →
  ∃ t, l = chars s ++ t ∧ st' = MState (p + length (chars s)) t g.
Proof. inversion 1. by eexists. Qed.

Lemma inv_class c p l g st' :
  matches (Class c) (MState p l g) st' →
  ∃ a t, l = a :: t ∧ c a = true ∧ st' = MState (S p) t g.
Proof. inversion 1. by eexists _, _. Qed.

Lemma inv_repeat c lo hi p l g st' :
  matches (Repeat c lo hi) (MState p l g) st' →
  ∃ txt t, l = txt ++ t ∧ lo ≤ length txt ∧ within hi (length txt)
           ∧ all_in c txt ∧ st' = MState (p + length txt) t g.
Proof. inversion 1. by eexists _, _. Qed.

Lemma inv_cat r1 r2 st st'' :
  matches (Cat r1 r2) st st'' → ∃ st', matches r1 st st' ∧ matches r2 st' st''.
Proof. inversion 1. by eexists. Qed.

Lemma inv_alt r1 r2 st st' :
  matches (Alt r1 r2) st st' → matches r1 st st' ∨ matches r2 st st'.
Proof. inversion 1; [by left|by right]. Qed.

Lemma inv_group n r p l g st' :
  matches (Group n r) (MState p l g) st' →
  ∃ p' l' g', matches r (MState p l g) (MState p' l' g')
              ∧ st' = MState p' l' (<[n := take (p' - p) l]> g').
Proof. inversion 1. by eexists _, _, _. Qed.

Lemma version_sound p l g st' :
  matches VERSION (MState p l g) st' →
  ∃ v t, l = v ++ t ∧ version_shape v ∧ st' = MState (p + length v) t g.
Proof.
  intros H. apply inv_alt in H as [H|H].
  - apply inv_cat in H as (s1 & H1 & H).
    apply inv_repeat in H1 as (pre & t1 & -> & _ & Hpre & Hv & ->).
    apply inv_cat in H as (s2 & H2 & H).
    apply inv_repeat in H2 as (a & t2 & -> & Ha & _ & Hda & ->).
    apply inv_cat in H as (s3 & H3 & H). apply inv_chr in H3 as (t3 & -> & ->).
    apply inv_cat in H as (s4 & H4 & H).
    apply inv_repeat in H4 as (b & t4 & -> & Hb & _ & Hdb & ->).
    apply inv_cat in H as (s5 & H5 & H). apply inv_chr in H5 as (t5 & -> & ->).
    apply inv_repeat in H as (c & t & -> & Hc & _ & Hdc & ->).
    exists (pre ++ a ++ "."%char :: b ++ "."%char :: c), t. split; [|split].
    + by repeat (rewrite <- app_assoc || rewrite <- app_comm_cons).
    + right. exists pre, a, b, c. split; [|repeat split; try done; intros ->; simpl in *; lia].
      destruct pre as [|x [|y pre]]; simpl in Hpre; [by left| |lia].
      right. apply Forall_cons in Hv as [Hx _]. by apply Ascii.eqb_eq in Hx as ->.
    + f_equal. rewrite !length_app. simpl. rewrite !length_app. simpl. lia.
  - apply inv_lit in H as (t & -> & ->). exists (chars "latest"), t. split; [done|].
    split; [by left|done].
Qed.

Lemma version_complete p v t g :
  version_shape v → matches VERSION (MState p (v ++ t) g) (MState (p + length v) t g).
Proof.
  intros [->|(pre & a & b & c & Hpre & [Ha Hda] & [Hb Hdb] & [Hc Hdc] & ->)].
  - apply m_alt_r. constructor.
  - apply m_alt_l.
    assert (Hlen : ∀ x : list ascii, x ≠ [] → 1 ≤ length x) by (intros [|??] ?; simpl; [done|lia]).
    replace ((pre ++ a ++ "."%char :: b ++ "."%char :: c) ++ t)
      with (pre ++ a ++ "."%char :: b ++ "."%char :: c ++ t)
      by (by repeat (rewrite <- app_assoc || rewrite <- app_comm_cons)).
    replace (p + length (pre ++ a ++ "."%char :: b ++ "."%char :: c))
      with (S (S (p + length pre + length a) + length b) + length c)
      by (rewrite !length_app; simpl; rewrite !length_app; simpl; lia).
    eapply m_cat; [apply m_repeat|]; [lia| |..].
    { destruct Hpre as [->| ->]; simpl; lia. }
    { destruct Hpre as [->| ->]; by repeat constructor. }
    eapply m_cat; [apply m_repeat; [by apply Hlen|done|done]|].
    eapply m_cat; [apply m_chr|].
    eapply m_cat; [apply m_repeat; [by apply Hlen|done|done]|].
    eapply m_cat; [apply m_chr|].
    apply m_repeat; [by apply Hlen|done|done].
Qed.

Lemma eqb_bool_decide (a b : ascii) : Ascii.eqb a b = bool_decide (a = b).
Proof.
  destruct (Ascii.eqb_spec a b);
    [by rewrite bool_decide_eq_true_2|by rewrite bool_decide_eq_false_2].
Qed.

Lemma owner_tail_spec c : owner_tail c = alphanumeric_or_hyphen c.
Proof. unfold owner_tail, alphanumeric_or_hyphen. by rewrite eqb_bool_decide. Qed.

Lemma repo_char_spec c : repo_char c = alphanumeric_underscore_dot_hyphen c.
Proof.
  unfold repo_char, alphanumeric_underscore_dot_hyphen. rewrite !eqb_bool_decide.
  destruct (is_alnum c); [done|]. simpl.
  destruct (decide (c = "_"%char)) as [->|H1]; [done|].
  destruct (decide (c = "."%char)) as [->|H2]; [done|].
  destruct (decide (c = "-"%char)) as [->|H3]; [done|].
  rewrite !bool_decide_eq_false_2; try done.
  rewrite !elem_of_cons, elem_of_nil. tauto.
Qed.

Lemma all_in_ext (c c' : ascii → bool) l : (∀ a, c a = c' a) → all_in c l ↔ all_in c' l.
Proof. intros H. unfold all_in. apply Forall_proper; [|done]. intros a. by rewrite H. Qed.

Lemma take_consumed p (txt t : list ascii) : take (p + length txt - p) (txt ++ t) = txt.
Proof. replace (p + length txt - p) with (length txt) by lia. apply take_app_length. Qed.

Lemma pattern_sound l st' :
  matches VERSION_PATTERN (MState 0 l ∅) st' →
  ∃ o r v tail,
    l = o ++ "/"%char :: r ++ "@"%char :: v ++ tail
    ∧ owner_shape o ∧ repo_shape r ∧ version_shape v ∧ at_end tail = true
    ∧ groups st' = captured o r v.
Proof.
  intros H. apply inv_cat in H as (s0 & H0 & H). apply inv_bol in H0 as [_ ->].
  apply inv_cat in H as (s1 & H1 & H). apply inv_group in H1 as (p1 & l1 & g1 & H1 & ->).
  apply inv_cat in H1 as (sa & Ha & H1). apply inv_class in Ha as (a & ta & -> & Ha & ->).
  apply inv_repeat in H1 as (o & t1 & -> & _ & Ho & Hot & [= -> -> ->]).
  apply inv_cat in H as (s2 & H2 & H). apply inv_chr in H2 as (t2 & -> & ->).
  apply inv_cat in H as (s3 & H3 & H). apply inv_group in H3 as (p3 & l3 & g3 & H3 & ->).
  apply inv_repeat in H3 as (r & t3 & -> & Hr & _ & Hrt & [= -> -> ->]).
  apply inv_cat in H as (s4 & H4 & H). apply inv_chr in H4 as (t4 & -> & ->).
  apply inv_cat in H as (s5 & H5 & H). apply inv_group in H5 as (p5 & l5 & g5 & H5 & ->).
  apply version_sound in H5 as (v & tail & -> & Hv & [= -> -> ->]).
  apply inv_eol in H as [Hend ->].
  exists (a :: o), r, v, tail. split; [done|]. split; [|split; [|split; [done|split; [done|]]]].
  - exists a, o. simpl in *. repeat split; try done; [|lia].
    by apply (all_in_ext _ _ _ owner_tail_spec).
  - split; [intros ->; simpl in Hr; lia|].
    by apply (all_in_ext _ _ _ repo_char_spec).
  - simpl. unfold captured. by rewrite !take_consumed, take_app_length.
Qed.

Lemma pattern_complete o r v tail :
  owner_shape o → repo_shape r → version_shape v → at_end tail = true →
  ∃ st', matches VERSION_PATTERN (MState 0 (o ++ "/"%char :: r ++ "@"%char :: v ++ tail) ∅) st'.
Proof.
  intros (a & t & -> & Ha & Ht & Hlen) [Hr Hrt] Hv Hend. simpl in Hlen.
  apply (all_in_ext _ _ _ owner_tail_spec) in Ht.
  apply (all_in_ext _ _ _ repo_char_spec) in Hrt.
  eexists. eapply m_cat; [apply m_bol|].
  eapply m_cat.
  { apply m_group. eapply m_cat; [by apply m_class|].
    apply m_repeat; [lia|simpl; lia|done]. }
  eapply m_cat; [apply m_chr|].
  eapply m_cat.
  { apply m_group. apply m_repeat; [|done|done]. destruct r; simpl; [done|lia]. }
  eapply m_cat; [apply m_chr|].
  eapply m_cat; [apply m_group, version_complete, Hv|].
  by apply m_eol.
Qed.

End VersionPattern.

Section Parsing.
Import PyStr Re Pattern VersionSpec.

Local Abbreviation nl := ("010"%char).

Lemma split_unique (c : ascii) x y x' y' :
  c ∉ x → c ∉ x' → x ++ c :: y = x' ++ c :: y' → x = x' ∧ y = y'.
Proof.
  revert x'. induction x as [|a x IH]; intros [|a' x'] Hx Hx'; simpl.
  - by intros [= ->].
  - intros [= <- _]. destruct Hx'. by left.
  - intros [= -> _]. destruct Hx. by left.
  - intros [= -> H]. apply IH in H as [-> ->]; [done|..].
    + intros ?. apply Hx. by right.
    + intros ?. apply Hx'. by right.
Qed.

Lemma all_in_excludes (c : ascii) P l : P c = false → all_in P l → c ∉ l.
Proof.
  intros Hc Hl Hin. unfold all_in in Hl. rewrite Forall_forall in Hl.
  apply Hl in Hin. congruence.
Qed.

Lemma owner_no_slash o : owner_shape o → "/"%char ∉ o.
Proof.
  intros (a & t & -> & Ha & Ht & _) Hin. apply elem_of_cons in Hin as [Heq|Hin].
  - subst a. by vm_compute in Ha.
  - by apply (all_in_excludes "/" alphanumeric_or_hyphen t).
Qed.

Lemma repo_no_at r : repo_shape r → "@"%char ∉ r.
Proof. intros [_ Hr]. by apply (all_in_excludes "@" alphanumeric_underscore_dot_hyphen r). Qed.

Lemma version_no_newline v : version_shape v → nl ∉ v.
Proof.
  intros [->|(pre & a & b & c & Hpre & [_ Ha] & [_ Hb] & [_ Hc] & ->)].
  - intros H. repeat (apply elem_of_cons in H as [H|H]; [done|]). by apply elem_of_nil in H.
  - rewrite !elem_of_app, !elem_of_cons, !elem_of_app, !elem_of_cons.
    intros [H|[H|[H|[H|[H|H]]]]]; try done.
    + destruct Hpre as [-> | ->]; [by apply elem_of_nil in H|].
      apply elem_of_cons in H as [H|H]; [done|by apply elem_of_nil in H].
    + by apply (all_in_excludes nl is_digit a).
    + by apply (all_in_excludes nl is_digit b).
    + by apply (all_in_excludes nl is_digit c).
Qed.

Lemma at_end_cases tail : at_end tail = true → tail = [] ∨ tail = [nl].
Proof.
  destruct tail as [|c [|? ?]]; simpl; [by left| |done].
  intros H. apply Ascii.eqb_eq in H as ->. by right.
Qed.

Lemma version_tail_unique v tail v' tail' :
  nl ∉ v → nl ∉ v' → at_end tail = true → at_end tail' = true →
  v ++ tail = v' ++ tail' → v = v'.
Proof.
  intros Hv Hv' [-> | ->]%at_end_cases [-> | ->]%at_end_cases; rewrite ?app_nil_r.
  - done.
  - intros ->. destruct Hv. apply elem_of_app. right. by left.
  - intros <-. destruct Hv'. apply elem_of_app. right. by left.
  - by intros ?%app_inv_tail.
Qed.

Lemma decomposition_unique o r v tail o' r' v' tail' :
  owner_shape o → repo_shape r → version_shape v → at_end tail = true →
  owner_shape o' → repo_shape r' → version_shape v' → at_end tail' = true →
  o ++ "/"%char :: r ++ "@"%char :: v ++ tail = o' ++ "/"%char :: r' ++ "@"%char :: v' ++ tail' →
  o = o' ∧ r = r' ∧ v = v'.
Proof.
  intros Ho Hr Hv Ht Ho' Hr' Hv' Ht' H.
  apply split_unique in H as [-> H]; [|by apply owner_no_slash..].
  apply split_unique in H as [-> H]; [|by apply repo_no_at..].
  apply version_tail_unique in H; [done|by apply version_no_newline..|done|done].
Qed.

Lemma captured_groups o r v :
  group (captured o r v) 1 = str o ∧ group (captured o r v) 2 = str r
  ∧ group (captured o r v) 3 = str v.
Proof. unfold group, captured. by simplify_map_eq. Qed.

(** What [parse_version_string] computes on a string that decomposes. *)
Lemma parse_decomposed value o r v tail :
  chars value = o ++ "/"%char :: r ++ "@"%char :: v ++ tail →
  owner_shape o → repo_shape r → version_shape v → at_end tail = true →
  parse_version_string value = Return (str o, str r, str v).
Proof.
  intros Hl Ho Hr Hv Ht.
  destruct (pattern_complete o r v tail Ho Hr Hv Ht) as [st Hst].
  destruct (exec_complete VERSION_PATTERN _ st Some Hst) as [st' Hexec]; [done|].
  destruct (exec_sound _ _ _ _ Hexec) as (st'' & Hm & [= ->]).
  apply pattern_sound in Hm as (o' & r' & v' & tail' & Hl' & Ho' & Hr' & Hv' & Ht' & Hg).
  destruct (decomposition_unique o r v tail o' r' v' tail') as (-> & -> & ->); try done.
  unfold parse_version_string, re_match. rewrite Hl, Hexec. simpl. rewrite Hg.
  by destruct (captured_groups o' r' v') as (-> & -> & ->).
Qed.

(** The exact behaviour of [parse_version_string]: it succeeds on the
    well-formed specifiers, and also on a well-formed specifier followed by
    one newline, which [$] lets pass and which is not part of the version
    it returns. *)
Theorem parse_version_string_exact value o r v :
  parse_version_string value = Return (o, r, v)
  ↔ well_formed value o r v
    ∨ ∃ value', value = (value' +:+ newline)%string ∧ well_formed value' o r v.
Proof.
  split.
  - unfold parse_version_string, re_match.
    destruct (exec VERSION_PATTERN Some (MState 0 (chars value) ∅)) as [st|] eqn:Hexec; [|done].
    simpl. intros [= <- <- <-].
    apply exec_sound in Hexec as (st' & Hm & [= ->]).
    apply pattern_sound in Hm as (o & r & v & tail & Hl & Ho & Hr & Hv & Ht & Hg).
    rewrite Hg. destruct (captured_groups o r v) as (-> & -> & ->).
    assert (Hwf : ∀ s, chars s = o ++ "/"%char :: r ++ "@"%char :: v →
                       well_formed s (str o) (str r) (str v)).
    { intros s Hs. unfold well_formed. rewrite !chars_str. split; [|done].
      apply chars_inj. by rewrite !chars_app, !chars_str, Hs. }
    apply at_end_cases in Ht as [-> | ->].
    + left. apply Hwf. by rewrite Hl, app_nil_r.
    + right. exists (str (o ++ "/"%char :: r ++ "@"%char :: v)). split.
      * apply chars_inj. rewrite chars_app, chars_str, Hl.
        by repeat (rewrite <- app_assoc || rewrite <- app_comm_cons).
      * apply Hwf. by rewrite chars_str.
  - intros [Hwf | (value' & -> & Hwf)]; destruct Hwf as (-> & Ho & Hr & Hv);
      rewrite <- (str_chars o), <- (str_chars r), <- (str_chars v) at 2.
    + apply (parse_decomposed _ _ _ _ []); try done.
      rewrite !chars_app. simpl. by rewrite app_nil_r.
    + apply (parse_decomposed _ _ _ _ [nl]); try done.
      rewrite !chars_app. simpl.
      by repeat (rewrite <- app_assoc || rewrite <- app_comm_cons).
Qed.

Lemma parse_version_string_error value e :
  parse_version_string value = Raised e →
  e = ArgumentTypeError ("Invalid version string: " +:+ value).
Proof.
  unfold parse_version_string. destruct (re_match _ _); [done|]. by intros [= <-].
Qed.

End Parsing.
Ltac unfold_monad :=
unfold mbind, M_bind, mret, M_ret, raise, gets, modify, lift_res, logging,
  raise_for_status, try_finally, try_except in *.

(** ** The filesystem calls *)

Section Filesystem.
Context {paths : Paths}.

Lemma mkdir_at_outcome ups p w :
  (∃ e, os.mkdir_at ups p w = Exn e w)
  ∨ (∃ w', os.mkdir_at ups p w = Ret tt w'
           ∧ fs w !! p = None
           ∧ fs w' !! p = Some (Directory [])
           ∧ requests w' = requests w ∧ log w' = log w
           ∧ ∀ q, q ≠ p → q ∉ ups → fs w' !! q = fs w !! q).
Proof.
  unfold os.mkdir_at. destruct (fs w !! p) as [n|] eqn:Hp; [left; by eexists|].
  destruct ups as [|head ups].
  - right. eexists. split; [done|]. split; [done|]. simpl. rewrite lookup_insert_eq.
    split; [done|]. split; [done|]. split; [done|].
    intros q Hq _. by rewrite lookup_insert_ne.
  - destruct (fs w !! head) as [[|l]|] eqn:Hh; [left; by eexists| |left; by eexists].
    right. eexists. split; [done|]. split; [done|]. simpl. rewrite lookup_insert_eq.
    split; [done|]. split; [done|]. split; [done|].
    intros q Hq Hin. rewrite lookup_insert_ne by done.
    rewrite lookup_insert_ne; [done|]. intros ->. apply Hin. by left.
Qed.

(** The last step of [makedirs]: [mkdir], whose error is let through
    unless the path is a directory. *)
Lemma makedirs_last ups name w :
  try_except (os.mkdir_at ups name)
    (λ e, isdir ← os.path_isdir name; if (isdir : bool) then mret tt else raise e) w
  = match os.mkdir_at ups name w with
    | Ret a w' => Ret a w'
    | Exn e w' =>
        match fs w' !! name with
        | Some (Directory _) => Ret tt w'
        | _ => Exn e w'
        end
    | OutOfFuel => OutOfFuel
    end.
Proof.
  unfold try_except. destruct (os.mkdir_at ups name w) as [a w'|e w'|]; [done| |done].
  unfold os.path_isdir. unfold_monad. by destruct (fs w' !! name) as [[|l]|].
Qed.

Lemma makedirs_from_nil name w :
  os.makedirs_from [] name w
  = match os.mkdir_at [] name w with
    | Ret a w' => Ret a w'
    | Exn e w' =>
        match fs w' !! name with
        | Some (Directory _) => Ret tt w'
        | _ => Exn e w'
        end
    | OutOfFuel => OutOfFuel
    end.
Proof. rewrite <- makedirs_last. reflexivity. Qed.

Lemma makedirs_from_cons head ups name w :
  os.makedirs_from (head :: ups) name w
  = match (if bool_decide (is_Some (fs w !! head)) then Ret tt w
           else match os.makedirs_from ups head w with
                | Exn (OSError FileExistsError _) w1 => Ret tt w1
                | o => o
                end) with
    | Ret _ w1 =>
        match os.mkdir_at (head :: ups) name w1 with
        | Ret a w' => Ret a w'
        | Exn e w' =>
            match fs w' !! name with
            | Some (Directory _) => Ret tt w'
            | _ => Exn e w'
            end
        | OutOfFuel => OutOfFuel
        end
    | Exn e w1 => Exn e w1
    | OutOfFuel => OutOfFuel
    end.
Proof.
  change (os.makedirs_from (head :: ups) name w)
    with (((found ← os.path_exists head;
            if (found : bool) then mret tt
            else try_except (os.makedirs_from ups head)
                   (λ e, match e with
                         | OSError FileExistsError _ => mret tt
                         | _ => raise e
                         end)) ;;
           try_except (os.mkdir_at (head :: ups) name)
             (λ e, isdir ← os.path_isdir name;
                   if (isdir : bool) then mret tt else raise e)) w).
  unfold mbind at 1. unfold M_bind at 1.
  assert (Hfirst :
    (found ← os.path_exists head;
     if (found : bool) then mret tt
     else try_except (os.makedirs_from ups head)
            (λ e, match e with
                  | OSError FileExistsError _ => mret tt
                  | _ => raise e
                  end)) w
    = (if bool_decide (is_Some (fs w !! head)) then Ret tt w
       else match os.makedirs_from ups head w with
            | Exn (OSError FileExistsError _) w1 => Ret tt w1
            | o => o
            end)).
  { unfold os.path_exists. unfold_monad.
    destruct (bool_decide (is_Some (fs w !! head))); [done|].
    destruct (os.makedirs_from ups head w) as [a w1|e w1|]; [done| |done].
    by destruct e as [| | | | | | |[] p]. }
  rewrite Hfirst.
  destruct (if bool_decide (is_Some (fs w !! head)) then Ret tt w
            else match os.makedirs_from ups head w with
                 | Exn (OSError FileExistsError _) w1 => Ret tt w1
                 | o => o
                 end) as [[] w1|e w1|]; [|done|done].
  apply makedirs_last.
Qed.

(** [makedirs] ends, by return or by exception; it changes nothing but the
    path and the directories above it. *)
Lemma makedirs_from_outcome ups name w :
  ∃ w', (os.makedirs_from ups name w = Ret tt w'
         ∨ ∃ e, os.makedirs_from ups name w = Exn e w')
        ∧ requests w' = requests w ∧ log w' = log w
        ∧ ∀ q, q ≠ name → q ∉ ups → fs w' !! q = fs w !! q.
Proof.
  revert name w. induction ups as [|head ups IH]; intros name w.
  - rewrite makedirs_from_nil.
    destruct (mkdir_at_outcome [] name w) as [[e He]|(w' & Hw' & _ & _ & Hr & Hl & Hfr)].
    + rewrite He. exists w. split; [|done].
      destruct (fs w !! name) as [[|l]|]; [right|left|right]; eauto.
    + rewrite Hw'. exists w'. split; [by left|]. split; [done|]. split; [done|].
      intros q Hq _. apply Hfr; [done|]. apply not_elem_of_nil.
  - rewrite makedirs_from_cons.
    assert (Hfirst : ∃ w1,
      ((if bool_decide (is_Some (fs w !! head)) then Ret tt w
        else match os.makedirs_from ups head w with
             | Exn (OSError FileExistsError _) w1 => Ret tt w1
             | o => o
             end) = Ret tt w1
       ∨ ∃ e, (if bool_decide (is_Some (fs w !! head)) then Ret tt w
               else match os.makedirs_from ups head w with
                    | Exn (OSError FileExistsError _) w1 => Ret tt w1
                    | o => o
                    end) = Exn e w1)
      ∧ requests w1 = requests w ∧ log w1 = log w
      ∧ ∀ q, q ≠ name → q ∉ head :: ups → fs w1 !! q = fs w !! q).
    { destruct (bool_decide (is_Some (fs w !! head))); [exists w; split; [by left|done]|].
      destruct (IH head w) as (w1 & Hw1 & Hr & Hl & Hfr).
      exists w1. split.
      - destruct Hw1 as [-> | [e ->]]; [by left|].
        destruct e as [| | | | | | |[] p]; first [right; by eexists | by left].
      - split; [done|]. split; [done|]. intros q _ Hq. apply Hfr.
        + intros ->. apply Hq. by left.
        + intros Hin. apply Hq. by right. }
    destruct Hfirst as (w1 & Hw1 & Hr1 & Hl1 & Hfr1).
    destruct Hw1 as [-> | [e ->]];
      [|exists w1; split; [right; by eexists|by split_and!]].
    destruct (mkdir_at_outcome (head :: ups) name w1)
      as [[e He]|(w' & Hw' & _ & _ & Hr & Hl & Hfr)].
    + rewrite He. exists w1. split; [|by split_and!].
      destruct (fs w1 !! name) as [[|l]|]; [right|left|right]; eauto.
    + rewrite Hw'. exists w'. split; [by left|].
      split; [congruence|]. split; [congruence|].
      intros q Hq Hin. rewrite Hfr by done. by apply Hfr1.
Qed.

(** When [makedirs] returns, the path is a directory. *)
Lemma makedirs_from_directory ups name w w' :
  os.makedirs_from ups name w = Ret tt w' → ∃ l, fs w' !! name = Some (Directory l).
Proof.
  assert (Hlast : ∀ w1, match os.mkdir_at ups name w1 with
                        | Ret a w' => Ret a w'
                        | Exn e w' =>
                            match fs w' !! name with
                            | Some (Directory _) => Ret tt w'
                            | _ => Exn e w'
                            end
                        | OutOfFuel => OutOfFuel
                        end = Ret tt w' →
                        ∃ l, fs w' !! name = Some (Directory l)).
  { intros w1.
    destruct (mkdir_at_outcome ups name w1) as [[e He]|(w2 & Hw2 & _ & Hd & _)].
    - rewrite He. destruct (fs w1 !! name) as [[|l]|] eqn:Hn; [done| |done].
      intros [= <-]. by eexists.
    - rewrite Hw2. intros [= <-]. by eexists. }
  destruct ups as [|head ups].
  - rewrite makedirs_from_nil. apply Hlast.
  - rewrite makedirs_from_cons.
    destruct (if bool_decide (is_Some (fs w !! head)) then Ret tt w
              else match os.makedirs_from ups head w with
                   | Exn (OSError FileExistsError _) w1 => Ret tt w1
                   | o => o
                   end) as [[] w1|e w1|]; [|done|done].
    apply Hlast.
Qed.

(** A path that did not exist, and is not counted among the directories
    above itself, is an empty directory when [makedirs] returns. *)
Lemma makedirs_from_fresh ups name w w' :
  name ∉ ups →
  fs w !! name = None →
  os.makedirs_from ups name w = Ret tt w' →
  fs w' !! name = Some (Directory []).
Proof.
  intros Hnot Hnone.
  assert (Hlast : ∀ w1, fs w1 !! name = None →
                        match os.mkdir_at ups name w1 with
                        | Ret a w' => Ret a w'
                        | Exn e w' =>
                            match fs w' !! name with
                            | Some (Directory _) => Ret tt w'
                            | _ => Exn e w'
                            end
                        | OutOfFuel => OutOfFuel
                        end = Ret tt w' →
                        fs w' !! name = Some (Directory [])).
  { intros w1 Hn1.
    destruct (mkdir_at_outcome ups name w1) as [[e He]|(w2 & Hw2 & _ & Hd & _)].
    - rewrite He. by rewrite Hn1.
    - rewrite Hw2. by intros [= <-]. }
  destruct ups as [|head ups].
  - rewrite makedirs_from_nil. by apply Hlast.
  - rewrite makedirs_from_cons.
    destruct (if bool_decide (is_Some (fs w !! head)) then Ret tt w
              else match os.makedirs_from ups head w with
                   | Exn (OSError FileExistsError _) w1 => Ret tt w1
                   | o => o
                   end) as [[] w1|e w1|] eqn:Hfirst; [|done|done].
    apply Hlast.
    revert Hfirst.
    destruct (bool_decide (is_Some (fs w !! head))); [by intros [= <-]|].
    destruct (makedirs_from_outcome ups head w) as (w2 & Hw2 & _ & _ & Hfr).
    assert (Hkeep : fs w2 !! name = None).
    { rewrite Hfr; [done| |].
      - intros ->. apply Hnot. by left.
      - intros Hin. apply Hnot. by right. }
    destruct Hw2 as [-> | [e ->]]; [by intros [= <-]|].
    destruct e as [| | | | | | |[] p]; first [done | by intros [= <-]].
Qed.

(** When [makedirs] raises on a path that did not exist, the path still
    does not exist. *)
Lemma makedirs_from_failed ups name w e w' :
  name ∉ ups →
  fs w !! name = None →
  os.makedirs_from ups name w = Exn e w' →
  fs w' !! name = None.
Proof.
  intros Hnot Hnone.
  assert (Hlast : ∀ w1, fs w1 !! name = None →
                        match os.mkdir_at ups name w1 with
                        | Ret a w' => Ret a w'
                        | Exn e w' =>
                            match fs w' !! name with
                            | Some (Directory _) => Ret tt w'
                            | _ => Exn e w'
                            end
                        | OutOfFuel => OutOfFuel
                        end = Exn e w' →
                        fs w' !! name = None).
  { intros w1 Hn1.
    destruct (mkdir_at_outcome ups name w1) as [[x He]|(w2 & Hw2 & _)].
    - rewrite He, Hn1. by intros [= _ <-].
    - by rewrite Hw2. }
  assert (Hup : ∀ head ups', ups = head :: ups' → ∀ w1 x,
            (if bool_decide (is_Some (fs w !! head)) then Ret tt w
             else match os.makedirs_from ups' head w with
                  | Exn (OSError FileExistsError _) w1 => Ret tt w1
                  | o => o
                  end) = x →
            final_world x = Some w1 → fs w1 !! name = None).
  { intros head ups' -> w1 x <-.
    destruct (bool_decide (is_Some (fs w !! head))); [by intros [= <-]|].
    destruct (makedirs_from_outcome ups' head w) as (w2 & Hw2 & _ & _ & Hfr).
    assert (Hkeep : fs w2 !! name = None).
    { rewrite Hfr; [done| |].
      - intros ->. apply Hnot. by left.
      - intros Hin. apply Hnot. by right. }
    destruct Hw2 as [-> | [x ->]]; [by intros [= <-]|].
    destruct x as [| | | | | | |[] p]; by intros [= <-]. }
  destruct ups as [|head ups].
  - rewrite makedirs_from_nil. by apply Hlast.
  - rewrite makedirs_from_cons.
    destruct (if bool_decide (is_Some (fs w !! head)) then Ret tt w
              else match os.makedirs_from ups head w with
                   | Exn (OSError FileExistsError _) w1 => Ret tt w1
                   | o => o
                   end) as [[] w1|x w1|] eqn:Hfirst; [| |done].
    + apply Hlast. by apply (Hup head ups eq_refl w1 _ Hfirst).
    + intros [= _ <-]. by apply (Hup head ups eq_refl w1 _ Hfirst).
Qed.

(** What [makedirs] leaves alone. *)
Lemma makedirs_effect name w wm :
  final_world (os.makedirs name w) = Some wm →
  requests wm = requests w ∧ log wm = log w
  ∧ ∀ q, q ≠ name → q ∉ parents name → fs wm !! q = fs w !! q.
Proof.
  unfold os.makedirs.
  destruct (makedirs_from_outcome (parents name) name w) as (w' & Hw' & Hr & Hl & Hfr).
  destruct Hw' as [-> | [e ->]]; by intros [= <-].
Qed.

Lemma unlinked_frame p m q :
  q ≠ p → q ∉ parents p → os.unlinked p m !! q = m !! q.
Proof.
  intros Hq Hup. unfold os.unlinked. rewrite lookup_delete_ne by done.
  destruct (parents p) as [|head ups]; [done|].
  destruct (m !! head) as [[|l]|]; [done| |done].
  rewrite lookup_insert_ne; [done|]. intros ->. apply Hup. by left.
Qed.

End Filesystem.

(** ** [download_release_asset_zip] *)

Section AssetScan.

Lemma scan_assets_nameless pre a post :
  Forall (λ b, asset_name b ≠ Some "dist.zip"%string) pre →
  asset_name a = None →
  scan_assets (pre ++ a :: post) = Raised (KeyError "name").
Proof.
  intros Hpre Ha. induction Hpre as [|b pre Hb _ IH]; simpl.
  - by rewrite Ha.
  - destruct (asset_name b) as [n|]; [|done].
    destruct (String.eqb_spec n "dist.zip"); [congruence|done].
Qed.

Lemma scan_assets_found pre a post :
  Forall named_other pre →
  asset_name a = Some "dist.zip"%string →
  scan_assets (pre ++ a :: post) = Return (Some (asset_url a)).
Proof.
  intros Hpre Ha. induction Hpre as [|b pre (n & Hn & Hne) _ IH]; simpl.
  - by rewrite Ha.
  - rewrite Hn. by destruct (String.eqb_spec n "dist.zip").
Qed.

Lemma scan_assets_absent l :
  Forall named_other l → scan_assets l = Return None.
Proof.
  induction 1 as [|b l (n & Hn & Hne) _ IH]; simpl; [done|].
  rewrite Hn. by destruct (String.eqb_spec n "dist.zip").
Qed.

End AssetScan.

Section Extraction.
Context {paths : Paths}.

Lemma write_member_directory dest n w l :
  fs w !! dest = Some (Directory l) →
  zipfile.write_member dest n w
  = Ret tt (set_fs (<[dest := Directory (zipfile.add_entry n l)]>) w).
Proof.
  intros Hl. unfold zipfile.write_member, os.path_exists. unfold_monad.
  rewrite bool_decide_eq_true_2 by (by rewrite Hl). by rewrite Hl.
Qed.

Lemma write_members_directory dest ns w l :
  fs w !! dest = Some (Directory l) →
  zipfile.write_members dest ns w
  = Ret tt (set_fs (λ m, <[dest := Directory (add_entries l ns)]> m) w).
Proof.
  revert w l. induction ns as [|n ns IH]; intros w l Hl; simpl.
  - unfold mret, M_ret. f_equal. destruct w as [m rq lg]; unfold set_fs; simpl in *.
    f_equal. by rewrite insert_id.
  - unfold mbind, M_bind. rewrite (write_member_directory _ _ _ _ Hl).
    rewrite (IH _ (zipfile.add_entry n l)).
    + f_equal. destruct w as [m rq lg]; unfold set_fs; simpl. f_equal.
      by rewrite insert_insert_eq.
    + simpl. by rewrite lookup_insert_eq.
Qed.

(** One member: the call ends, touches neither requests nor log, and
    changes nothing but the destination and the directories above it;
    when it returns the destination is a directory. *)
Lemma write_member_outcome dest n w :
  ∃ w', ((zipfile.write_member dest n w = Ret tt w'
          ∧ ∃ l, fs w' !! dest = Some (Directory l))
         ∨ ∃ e, zipfile.write_member dest n w = Exn e w')
        ∧ requests w' = requests w ∧ log w' = log w
        ∧ ∀ q, q ≠ dest → q ∉ parents dest → fs w' !! q = fs w !! q.
Proof.
  destruct (fs w !! dest) as [[|l]|] eqn:Hd.
  - exists w. split; [|done]. right.
    unfold zipfile.write_member, os.path_exists. unfold_monad.
    rewrite bool_decide_eq_true_2 by (by rewrite Hd). rewrite Hd. by eexists.
  - rewrite (write_member_directory _ _ _ _ Hd). eexists. split.
    + left. split; [done|]. simpl. rewrite lookup_insert_eq. by eexists.
    + split; [done|]. split; [done|]. intros q Hq _. simpl. by rewrite lookup_insert_ne.
  - unfold zipfile.write_member, os.path_exists. unfold_monad.
    rewrite bool_decide_eq_false_2 by (rewrite Hd; by intros [? ?]).
    unfold os.makedirs.
    destruct (makedirs_from_outcome (parents dest) dest w) as (w1 & Hw1 & Hr & Hl & Hfr).
    destruct Hw1 as [Hw1 | [e Hw1]]; rewrite Hw1.
    + destruct (makedirs_from_directory _ _ _ _ Hw1) as [l Hl1]. rewrite Hl1.
      eexists. split.
      * left. split; [done|]. simpl. rewrite lookup_insert_eq. by eexists.
      * split; [done|]. split; [done|]. intros q Hq Hin. simpl.
        rewrite lookup_insert_ne by done. by apply Hfr.
    + exists w1. split; [right; by eexists|done].
Qed.

(** Writing members neither loops nor touches the requests. *)
Lemma write_members_outcome dest ns w :
  ∃ w', (zipfile.write_members dest ns w = Ret tt w'
         ∨ ∃ e, zipfile.write_members dest ns w = Exn e w')
        ∧ requests w' = requests w.
Proof.
  revert w. induction ns as [|n ns IH]; intros w; simpl.
  - exists w. split; [by left|done].
  - unfold mbind, M_bind.
    destruct (write_member_outcome dest n w) as (w1 & [[Hw1 _] | [e Hw1]] & Hr & _);
      rewrite Hw1.
    + destruct (IH w1) as (w2 & Hw2 & Hr2). exists w2. split; [done|congruence].
    + exists w1. split; [right; by eexists|done].
Qed.

End Extraction.

Section Download.
Context {paths : Paths}.
Variable server : list Request → Request → Reply.

Local Abbreviation download := (download_release_asset_zip server).
Local Abbreviation not_found := dist_zip_not_found.

Lemma extractall_directory a dest w l :
  fs w !! dest = Some (Directory l) →
  let w' := set_fs (λ m, <[dest := Directory (add_entries l (entries a))]> m) w in
  zipfile.extractall a dest w = if broken a then Exn BadZipFile w' else Ret tt w'.
Proof.
  intros Hl w'. unfold zipfile.extractall. unfold mbind, M_bind.
  rewrite (write_members_directory _ _ _ _ Hl). by destruct (broken a).
Qed.

(** [download] neither loops nor removes a destination directory. *)
Lemma download_keeps_directory release dest w l :
  fs w !! dest = Some (Directory l) →
  ∃ w' l', (download release dest w = Ret tt w' ∨ ∃ e, download release dest w = Exn e w')
           ∧ fs w' !! dest = Some (Directory l').
Proof.
  intros Hl. unfold download_release_asset_zip.
  pose (w1 u := add_request (GET_octet_stream u) w).
  destruct (scan_assets (default [] (assets release))) as [[u|]|e]; unfold_monad; simpl;
    try (exists w, l; split; [right; eexists; reflexivity|done]).
  destruct (PyStr.truthy u); [|exists w, l; split; [right; eexists; reflexivity|done]].
  unfold requests_get.
  destruct (server (requests w) (GET_octet_stream u)) as [msg|resp];
    [exists (w1 u), l; split; [right; eexists; reflexivity|done]|].
  destruct (is_error_status (status_code resp));
    [exists (w1 u), l; split; [right; eexists; reflexivity|done]|].
  destruct (payload resp) as [| |a|]; simpl;
    try (exists (w1 u), l; split; [right; eexists; reflexivity|done]).
  rewrite (extractall_directory a dest _ l) by done.
  eexists _, _. split.
  - destruct (broken a); [right; eauto|left; reflexivity].
  - simpl. apply lookup_insert_eq.
Qed.

(** C9.  [download_release_asset_zip] reads [asset["name"]] of every
    asset it scans: when an asset without the key ["name"] comes before
    any asset named [dist.zip], the call raises [KeyError('name')], not
    the "dist.zip not found" error, and leaves the world as it was. *)
Theorem download_nameless_asset_raises_KeyError release dest w pre a post :
  assets release = Some (pre ++ a :: post) →
  Forall (λ b, asset_name b ≠ Some "dist.zip"%string) pre →
  asset_name a = None →
  download release dest w = Exn (KeyError "name") w
  ∧ KeyError "name" ≠ not_found.
Proof.
  intros Has Hpre Ha. split; [|done].
  unfold download_release_asset_zip. rewrite Has. simpl.
  by rewrite (scan_assets_nameless _ _ _ Hpre Ha).
Qed.



End Download.

(** ** [FrontEndProvider]: [all_releases] and [get_release] *)

Section Provider.
Variable server : list Request → Request → Reply.

Local Abbreviation loop := (all_releases_loop server).
Local Abbreviation crawling := (crawl server).

Lemma followed_Some next u : followed next = Some u → next = Some u ∧ PyStr.truthy u = true.
Proof.
  destruct next as [u'|]; simpl; [|done].
  destruct (PyStr.truthy u') eqn:Hu; [|done]. by intros [= <-].
Qed.

Lemma loop_stops fuel next acc w :
  followed next = None → loop fuel next acc w = Ret acc w.
Proof.
  destruct next as [u|], fuel; simpl; try done; by destruct (PyStr.truthy u).
Qed.

Lemma add_requests_nil w : add_requests [] w = w.
Proof. destruct w. unfold add_requests. simpl. by rewrite app_nil_r. Qed.

Lemma add_requests_cons r l w : add_requests (r :: l) w = add_requests l (add_request r w).
Proof. unfold add_requests, add_request. simpl. by rewrite <- app_assoc. Qed.

Lemma add_requests_one r w : add_requests [r] w = add_request r w.
Proof. by rewrite add_requests_cons, add_requests_nil. Qed.

(** The loop walks the pagination the server offers, appending the pages
    to its accumulator. *)
Lemma all_releases_loop_crawl hist u pages e :
  crawling hist u pages e →
  ∀ fuel acc w, requests w = hist → length pages < fuel →
  loop fuel (Some u) acc w =
    match e with
    | Done => Ret (acc ++ concat pages.*2) (add_requests (GET <$> pages.*1) w)
    | Failed u' x => Exn x (add_requests ((GET <$> pages.*1) ++ [GET u']) w)
    end.
Proof.
  induction 1 as [hist u msg Hu Hs | hist u resp Hu Hs Hst | hist u resp Hu Hs Hst Hbody
                  | hist u resp page Hu Hs Hst Hbody Hnext
                  | hist u resp page u' pages e Hu Hs Hst Hbody Hnext Hrest IH];
    intros fuel acc w Hw Hfuel; (destruct fuel as [|fuel]; [simpl in Hfuel; lia|]);
    simpl; rewrite Hu; unfold mbind, M_bind, requests_get; rewrite Hw, Hs;
    try (unfold raise_for_status; rewrite Hst; unfold_monad).
  - by rewrite add_requests_one.
  - by rewrite add_requests_one.
  - unfold json_releases. rewrite add_requests_one.
    destruct (payload resp) as [l| | |]; try done. by destruct (Hbody l).
  - unfold json_releases. rewrite Hbody. unfold_monad.
    rewrite loop_stops by done. by rewrite app_nil_r, add_requests_one.
  - unfold json_releases. rewrite Hbody. unfold_monad.
    apply followed_Some in Hnext as [-> _].
    rewrite (IH fuel (acc ++ page) (add_request (GET u) w)).
    + destruct e; rewrite <- ?add_requests_cons; simpl; by rewrite <- ?app_assoc.
    + unfold add_request. simpl. by rewrite Hw.
    + simpl in Hfuel. lia.
Qed.

(** An [HTTPError] at the end of a walk carries the URL of the page that
    was answered with it, and a status that [raise_for_status] rejects. *)
Lemma crawl_http_error hist u pages u' status u'' :
  crawling hist u pages (Failed u' (HTTPError status u'')) →
  u'' = u' ∧ is_error_status status = true.
Proof.
  remember (Failed u' (HTTPError status u'')) as e eqn:He.
  induction 1 as [| hist u resp Htr Hrep Herr | | |]; try done.
  - injection He as <- <- <-. done.
  - by apply IHcrawl.
Qed.

(** C5, amended.  On pages that are answered with an array of releases,
    [all_releases] returns the concatenation, in order, of the arrays,
    following the [next] link of each response until a response has none
    (an empty URL is not followed either), with one GET per page, and
    stores the list.  When a page is answered with a status from 400 to
    599, the statuses [raise_for_status] rejects, the call raises
    [HTTPError] with that status at once, and when a page gets no answer
    it raises [RequestException]: the request of that page is the last
    one issued, it is issued once, and nothing is stored.  Any other
    status (1xx, 3xx) is no error. *)
Theorem all_releases_follows_pagination fuel st pages e :
  all_releases_cache (self st) = None →
  crawling (requests (world st)) (release_url (self st)) pages e →
  length pages < fuel →
  match e with
  | Done =>
      all_releases server fuel st
      = Ret (concat pages.*2)
          {| self := store_all_releases (concat pages.*2) (self st);
             world := add_requests (GET <$> pages.*1) (world st) |}
  | Failed u (HTTPError status u') =>
      all_releases server fuel st
      = Exn (HTTPError status u)
          {| self := self st;
             world := add_requests ((GET <$> pages.*1) ++ [GET u]) (world st) |}
      ∧ u' = u
      ∧ (400 ≤ status)%N ∧ (status < 600)%N
  | Failed u (RequestException msg) =>
      all_releases server fuel st
      = Exn (RequestException msg)
          {| self := self st;
             world := add_requests ((GET <$> pages.*1) ++ [GET u]) (world st) |}
  | Failed _ _ => True
  end.
Proof.
  intros Hcache Hcrawl Hfuel.
  assert (Hrun := all_releases_loop_crawl _ _ _ _ Hcrawl fuel [] (world st) eq_refl Hfuel).
  unfold all_releases, cached_property. rewrite Hcache, Hrun.
  destruct e as [|u x]; [done|].
  destruct x as [| | |status u'| | | |]; try done.
  destruct (crawl_http_error _ _ _ _ _ _ Hcrawl) as [-> Herr].
  split; [done|]. split; [done|].
  unfold is_error_status in Herr. apply andb_true_iff in Herr as [Hlo Hhi].
  apply N.leb_le in Hlo. apply N.ltb_lt in Hhi. done.
Qed.

Lemma tag_matches_true version r : tag_matches version r = true ↔ matches_tag version r.
Proof.
  unfold tag_matches, matches_tag. rewrite bool_decide_eq_true.
  rewrite !elem_of_cons, elem_of_nil. tauto.
Qed.

Lemma tag_matches_false version r : tag_matches version r = false ↔ ¬ matches_tag version r.
Proof. rewrite <- tag_matches_true. by destruct (tag_matches version r). Qed.

Lemma find_first {A} (f : A → bool) pre x post :
  Forall (λ y, f y = false) pre → f x = true → find f (pre ++ x :: post) = Some x.
Proof.
  intros Hpre Hx. induction Hpre as [|y pre Hy _ IH]; simpl; [by rewrite Hx|by rewrite Hy].
Qed.

Lemma find_nothing {A} (f : A → bool) l :
  Forall (λ y, f y = false) l → find f l = None.
Proof. induction 1 as [|y l Hy _ IH]; simpl; [done|by rewrite Hy]. Qed.

(** C4.  [get_release("latest")] is the [latest_release] property: the
    stored release if there is one, else the JSON body of one GET of
    [{release_url}/latest]; the list endpoint is not contacted and the slot
    of [all_releases] is not touched.  For any other version the result is
    the first release of [all_releases], in list order, whose [tag_name] is
    the version or ["v" + version]; when no release matches, the call
    raises [ValueError("Version {version} not found in releases")]. *)
Theorem get_release_resolves fuel version st :
  (version = "latest"%string →
     get_release server fuel version st = latest_release server st
     ∧ (∀ r, latest_release_cache (self st) = Some r →
          get_release server fuel version st = Ret r st)
     ∧ (latest_release_cache (self st) = None →
          let req := GET (release_url (self st) +:+ "/latest") in
          (∀ resp r,
              server (requests (world st)) req = Replies resp →
              is_error_status (status_code resp) = false →
              payload resp = JsonRelease r →
              get_release server fuel version st
              = Ret r {| self := store_latest_release r (self st);
                         world := add_request req (world st) |})
          ∧ (∃ st', ((∃ r, get_release server fuel version st = Ret r st')
                     ∨ (∃ e, get_release server fuel version st = Exn e st'))
                    ∧ all_releases_cache (self st') = all_releases_cache (self st)
                    ∧ requests (world st') = requests (world st) ++ [req])))
  ∧ (version ≠ "latest"%string →
     (∀ l st', all_releases server fuel st = Ret l st' →
        (∀ pre r post,
            l = pre ++ r :: post →
            Forall (λ x, ¬ matches_tag version x) pre →
            matches_tag version r →
            get_release server fuel version st = Ret r st')
        ∧ (Forall (λ x, ¬ matches_tag version x) l →
            get_release server fuel version st = Exn (version_not_found version) st'))
     ∧ (∀ e st', all_releases server fuel st = Exn e st' →
          get_release server fuel version st = Exn e st')).
Proof.
  split.
  - intros ->. unfold get_release. simpl. split; [done|]. split.
    + intros r Hr. unfold latest_release, cached_property. by rewrite Hr.
    + intros Hnone. set (req := GET _).
      unfold latest_release, cached_property. rewrite Hnone.
      unfold_monad. unfold requests_get. fold req. split.
      * intros resp r Hs Hst Hbody. rewrite Hs, Hst. unfold json_release. by rewrite Hbody.
      * destruct (server (requests (world st)) req) as [msg|resp].
        { eexists. split; [right; eexists; reflexivity|done]. }
        destruct (is_error_status (status_code resp)).
        { eexists. split; [right; eexists; reflexivity|done]. }
        unfold json_release. destruct (payload resp) as [|r| |]; unfold_monad;
          try (eexists; split; [right; eexists; reflexivity|done]).
        eexists. split; [left; eexists; reflexivity|done].
  - intros Hne. unfold get_release.
    destruct (String.eqb_spec version "latest") as [|_]; [done|].
    unfold mbind, M_bind. split.
    + intros l st' ->. split.
      * intros pre r post -> Hpre Hr.
        rewrite (find_first (tag_matches version) pre r post); [done| |by apply tag_matches_true].
        eapply Forall_impl; [exact Hpre|]. intros x Hx. by apply tag_matches_false.
      * intros Hl. rewrite (find_nothing (tag_matches version) l); [done|].
        eapply Forall_impl; [exact Hl|]. intros x Hx. by apply tag_matches_false.
    + by intros e st' ->.
Qed.

End Provider.

(** ** The download step of [init_frontend_unsafe] *)

Section DownloadStep.
Context {paths : Paths}.
Variable server : list Request → Request → Reply.

Local Abbreviation download := (download_release_asset_zip server).
Local Abbreviation step := (download_step server).

Lemma path_exists_absent p w : fs w !! p = None → os.path_exists p w = Ret false w.
Proof.
  intros H. unfold os.path_exists, gets. rewrite H.
  rewrite bool_decide_eq_false_2; [done|]. by intros [? ?].
Qed.

Lemma path_exists_present p w : is_Some (fs w !! p) → os.path_exists p w = Ret true w.
Proof. intros H. unfold os.path_exists, gets. by rewrite bool_decide_eq_true_2. Qed.

Local Abbreviation cleanup web_root :=
  (listing ← os.listdir web_root;
   match listing with
   | [] => os.rmdir web_root
   | _ :: _ => mret tt
   end).

Lemma unlinked_lookup p m : os.unlinked p m !! p = None.
Proof. unfold os.unlinked. apply lookup_delete_eq. Qed.

Lemma cleanup_directory web_root w l :
  fs w !! web_root = Some (Directory l) →
  cleanup web_root w
  = Ret tt (match l with [] => set_fs (os.unlinked web_root) w | _ :: _ => w end).
Proof.
  intros Hl. unfold mbind, M_bind, os.listdir. rewrite Hl.
  destruct l; [|done]. unfold os.rmdir. by rewrite Hl.
Qed.

Lemma cleanup_absent web_root w :
  fs w !! web_root = None →
  cleanup web_root w = Exn (OSError (os.missing (parents web_root) (fs w)) web_root) w.
Proof. intros Hn. unfold mbind, M_bind, os.listdir. by rewrite Hn. Qed.

Lemma cleanup_outcome web_root w :
  ∃ w', (cleanup web_root w = Ret tt w' ∨ ∃ e, cleanup web_root w = Exn e w')
        ∧ requests w' = requests w ∧ log w' = log w.
Proof.
  destruct (fs w !! web_root) as [[|l]|] eqn:Hn.
  - exists w. split; [|done]. right. unfold mbind, M_bind, os.listdir. rewrite Hn. by eexists.
  - rewrite (cleanup_directory _ _ _ Hn). eexists. split; [by left|]. by destruct l.
  - rewrite (cleanup_absent _ _ Hn). exists w. split; [right; by eexists|done].
Qed.

(** The body of the [try], once [makedirs] has returned. *)
Lemma step_body provider release web_root w wm :
  os.makedirs web_root w = Ret tt wm →
  (os.makedirs web_root ;;
   logging (downloading (folder_name provider) (semantic_version release) web_root) ;;
   logging (LogDebug release) ;;
   download release web_root) w
  = download release web_root
      (add_log (LogDebug release)
         (add_log (downloading (folder_name provider) (semantic_version release) web_root)
            wm)).
Proof. intros Hm. unfold mbind, M_bind, logging, modify. by rewrite Hm. Qed.

Lemma step_taken provider release web_root w :
  fs w !! web_root = None →
  step provider release web_root w
  = try_finally
      (os.makedirs web_root ;;
       logging (downloading (folder_name provider) (semantic_version release) web_root) ;;
       logging (LogDebug release) ;;
       download release web_root)
      (cleanup web_root) w.
Proof.
  intros Habsent. unfold download_step. unfold mbind at 1. unfold M_bind at 1.
  by rewrite (path_exists_absent _ _ Habsent).
Qed.

Lemma step_skipped provider release web_root w :
  is_Some (fs w !! web_root) → step provider release web_root w = Ret tt w.
Proof.
  intros Hsome. unfold download_step. unfold mbind at 1. unfold M_bind at 1.
  by rewrite (path_exists_present _ _ Hsome).
Qed.

(** The step when the target has been made: the download runs, and the
    [finally] clause removes the target if it is empty. *)
Lemma download_step_made provider release web_root w wm :
  fs w !! web_root = None →
  os.makedirs web_root w = Ret tt wm →
  let w1 := add_log (LogDebug release)
              (add_log (downloading (folder_name provider) (semantic_version release) web_root)
                 wm) in
  ∃ w2 l w3,
    fs w2 !! web_root = Some (Directory l)
    ∧ ((download release web_root w1 = Ret tt w2
        ∧ step provider release web_root w = Ret tt w3)
       ∨ (∃ e, download release web_root w1 = Exn e w2
               ∧ step provider release web_root w = Exn e w3))
    ∧ (l = [] → w3 = set_fs (os.unlinked web_root) w2 ∧ fs w3 !! web_root = None)
    ∧ (l ≠ [] → w3 = w2)
    ∧ fs w3 !! web_root ≠ Some (Directory []).
Proof.
  intros Habsent Hm w1.
  destruct (makedirs_from_directory _ _ _ _ Hm) as [l0 Hl0].
  destruct (download_keeps_directory server release web_root w1 l0)
    as (w2 & l & Hd & Hl); [done|].
  exists w2, l, (match l with [] => set_fs (os.unlinked web_root) w2 | _ :: _ => w2 end).
  split; [done|]. split.
  - rewrite (step_taken _ _ _ _ Habsent). unfold try_finally.
    rewrite (step_body provider release _ _ _ Hm). fold w1.
    destruct Hd as [Hd | [e Hd]]; [left | right; exists e]; (split; [done|]);
      by rewrite Hd, (cleanup_directory _ _ _ Hl).
  - split; [|split].
    + intros ->. split; [done|]. simpl. apply unlinked_lookup.
    + intros Hne. by destruct l.
    + destruct l; simpl; [by rewrite unlinked_lookup|by rewrite Hl].
Qed.

(** The step when the target cannot be made: nothing is requested or
    logged, and the step raises; when the target is still missing, the
    error is the one of [listdir] in the [finally] clause, which replaces
    the error of [makedirs]. *)
Lemma download_step_blocked provider release web_root w e wm :
  fs w !! web_root = None →
  os.makedirs web_root w = Exn e wm →
  ∃ e' w',
    step provider release web_root w = Exn e' w'
    ∧ requests w' = requests w ∧ log w' = log w
    ∧ (fs wm !! web_root = None →
         e' = OSError (os.missing (parents web_root) (fs wm)) web_root ∧ w' = wm).
Proof.
  intros Habsent Hm.
  destruct (makedirs_from_outcome (parents web_root) web_root w) as (wm' & Hwm & Hr & Hl & _).
  assert (wm' = wm) as ->.
  { unfold os.makedirs in Hm. destruct Hwm as [Hwm | [x Hwm]]; congruence. }
  rewrite (step_taken _ _ _ _ Habsent). unfold try_finally.
  assert (Hbody : (os.makedirs web_root ;;
                   logging (downloading (folder_name provider) (semantic_version release)
                              web_root) ;;
                   logging (LogDebug release) ;;
                   download release web_root) w = Exn e wm).
  { unfold mbind, M_bind. by rewrite Hm. }
  rewrite Hbody.
  destruct (fs wm !! web_root) as [n|] eqn:Hn.
  - destruct (cleanup_outcome web_root wm) as (w' & [Hc | [x Hc]] & Hr' & Hl'); rewrite Hc.
    + exists e, w'. split; [done|]. split; [congruence|]. split; [congruence|done].
    + exists x, w'. split; [done|]. split; [congruence|]. split; [congruence|done].
  - rewrite (cleanup_absent _ _ Hn). eexists _, wm. by split_and!.
Qed.

(** The step never exhausts fuel, and it only adds requests. *)
Lemma download_outcome release dest w :
  ∃ w' l, (download release dest w = Ret tt w' ∨ ∃ e, download release dest w = Exn e w')
          ∧ requests w' = requests w ++ l.
Proof.
  unfold download_release_asset_zip.
  destruct (scan_assets (default [] (assets release))) as [[u|]|e]; unfold_monad; simpl;
    try (exists w, []; split; [right; eexists; reflexivity|by rewrite app_nil_r]).
  destruct (PyStr.truthy u);
    [|exists w, []; split; [right; eexists; reflexivity|by rewrite app_nil_r]].
  unfold requests_get.
  destruct (server (requests w) (GET_octet_stream u)) as [msg|resp];
    [eexists _, [_]; split; [right; eexists; reflexivity|done]|].
  destruct (is_error_status (status_code resp));
    [eexists _, [_]; split; [right; eexists; reflexivity|done]|].
  destruct (payload resp) as [| |a|]; simpl;
    try (eexists _, [_]; split; [right; eexists; reflexivity|done]).
  unfold zipfile.extractall. unfold_monad.
  destruct (write_members_outcome dest (entries a) (add_request (GET_octet_stream u) w))
    as (w1 & [Hw1 | [e Hw1]] & Hr); rewrite Hw1.
  - destruct (broken a); exists w1, [GET_octet_stream u];
      (split; [first [left; reflexivity | right; eexists; reflexivity]|done]).
  - exists w1, [GET_octet_stream u]. split; [right; by eexists|done].
Qed.

Lemma download_step_outcome provider release web_root w :
  ∃ w' l, (step provider release web_root w = Ret tt w'
           ∨ ∃ e, step provider release web_root w = Exn e w')
          ∧ requests w' = requests w ++ l.
Proof.
  destruct (fs w !! web_root) as [n|] eqn:Hn.
  - exists w, []. split; [|by rewrite app_nil_r]. left. by apply step_skipped.
  - destruct (makedirs_from_outcome (parents web_root) web_root w)
      as (wm & [Hm | [e Hm]] & Hrm & _).
    + destruct (download_step_made provider release web_root w wm Hn Hm)
        as (w2 & l & w3 & Hl & Hrun & Hempty & Hfull & _).
      set (w1 := add_log _ _) in Hrun.
      destruct (download_outcome release web_root w1) as (w2' & rs & Hd & Hrs).
      assert (w2' = w2) as ->.
      { destruct Hrun as [[Hd2 _] | (x & Hd2 & _)], Hd as [Hd | [x' Hd]]; congruence. }
      exists w3, rs. split.
      * destruct Hrun as [[_ Hs] | (x & _ & Hs)]; [by left|right; by exists x].
      * destruct l; [destruct Hempty as [-> _]; [done|]; simpl; by rewrite Hrs, <- Hrm
                    |rewrite Hfull by done; by rewrite Hrs, <- Hrm].
    + destruct (download_step_blocked provider release web_root w e wm Hn Hm)
        as (e' & w' & Hs & Hr & _).
      exists w', []. split; [right; by exists e'|by rewrite app_nil_r].
Qed.

(** C8, amended.  The download step is guarded: when the target exists
    already it is skipped and the target stays as it is, be it an empty
    directory.  When the target does not exist, [makedirs] makes it; then
    [download_release_asset_zip] runs on it, and on both exits, return and
    exception, the [finally] clause removes the target if it is empty: a
    download that fails with nothing written leaves no target directory,
    one that fails after writing leaves the directory with what was
    written, and the target is not an empty directory afterwards.  When
    [makedirs] itself raises, nothing is requested and the step raises. *)
Theorem download_step_cleans_up provider release web_root w :
  (is_Some (fs w !! web_root) → step provider release web_root w = Ret tt w)
  ∧ (fs w !! web_root = None →
       (∀ wm,
           os.makedirs web_root w = Ret tt wm →
           let w1 := add_log (LogDebug release)
                       (add_log (downloading (folder_name provider)
                                   (semantic_version release) web_root) wm) in
           ∃ w2 l w3,
             fs w2 !! web_root = Some (Directory l)
             ∧ ((download release web_root w1 = Ret tt w2
                 ∧ step provider release web_root w = Ret tt w3)
                ∨ (∃ e, download release web_root w1 = Exn e w2
                        ∧ step provider release web_root w = Exn e w3))
             ∧ (l = [] → w3 = set_fs (os.unlinked web_root) w2 ∧ fs w3 !! web_root = None)
             ∧ (l ≠ [] → w3 = w2)
             ∧ fs w3 !! web_root ≠ Some (Directory []))
       ∧ (∀ e wm,
             os.makedirs web_root w = Exn e wm →
             ∃ e' w',
               step provider release web_root w = Exn e' w'
               ∧ requests w' = requests w ∧ log w' = log w
               ∧ (fs wm !! web_root = None →
                    e' = OSError (os.missing (parents web_root) (fs wm)) web_root
                    ∧ w' = wm))).
Proof.
  split; [apply step_skipped|]. intros Habsent. split.
  - intros wm Hm. by apply download_step_made.
  - intros e wm Hm. by apply (download_step_blocked provider release web_root w e wm).
Qed.

End DownloadStep.

(** ** [init_frontend_unsafe] and [init_frontend] *)

Section Resolver.
Import PyStr.
Context {paths : Paths}.
Variable DEFAULT_VERSION_STRING : string.
Variable DEFAULT_FRONTEND_PATH : string.
Variable CUSTOM_FRONTENDS_ROOT : string.
Variable joinpath : string → string → string.
Variable server : list Request → Request → Reply.

Local Abbreviation unsafe :=
  (init_frontend_unsafe DEFAULT_VERSION_STRING DEFAULT_FRONTEND_PATH CUSTOM_FRONTENDS_ROOT
     joinpath server).
Local Abbreviation init :=
  (init_frontend DEFAULT_VERSION_STRING DEFAULT_FRONTEND_PATH CUSTOM_FRONTENDS_ROOT
     joinpath server).
Local Abbreviation path_of := (cache_path CUSTOM_FRONTENDS_ROOT joinpath).
Local Abbreviation probe := (probe_cache CUSTOM_FRONTENDS_ROOT joinpath).
Local Abbreviation target_of := (web_root_of CUSTOM_FRONTENDS_ROOT joinpath).
Local Abbreviation resolve := (resolve_and_download CUSTOM_FRONTENDS_ROOT joinpath server).
Local Abbreviation loop := (all_releases_loop server).

Lemma probe_hit o r v w :
  startswith "v" v = true →
  is_Some (fs w !! path_of (o +:+ "_" +:+ r) (lstrip "v" v)) →
  probe o r v w
  = Ret (Some (path_of (o +:+ "_" +:+ r) (lstrip "v" v))) (add_log (using_existing_copy o r v) w).
Proof.
  intros Hv Hex. unfold probe_cache. rewrite Hv. unfold mbind, M_bind.
  by rewrite path_exists_present.
Qed.

Lemma probe_miss o r v w :
  startswith "v" v = false ∨ fs w !! path_of (o +:+ "_" +:+ r) (lstrip "v" v) = None →
  probe o r v w = Ret None w.
Proof.
  intros H. unfold probe_cache. destruct (startswith "v" v); [|done].
  destruct H as [|H]; [done|]. unfold mbind, M_bind. by rewrite path_exists_absent.
Qed.

Lemma unsafe_default fuel provider w :
  unsafe fuel DEFAULT_VERSION_STRING provider w = Ret DEFAULT_FRONTEND_PATH w.
Proof. unfold init_frontend_unsafe. by rewrite String.eqb_refl. Qed.

Lemma unsafe_invalid fuel vs provider w e :
  vs ≠ DEFAULT_VERSION_STRING →
  parse_version_string vs = Raised e →
  unsafe fuel vs provider w = Exn e w.
Proof.
  intros Hne Hp. unfold init_frontend_unsafe.
  destruct (String.eqb_spec vs DEFAULT_VERSION_STRING); [done|].
  unfold mbind, M_bind. by rewrite Hp.
Qed.

Lemma unsafe_hit fuel vs provider w o r v :
  vs ≠ DEFAULT_VERSION_STRING →
  parse_version_string vs = Return (o, r, v) →
  startswith "v" v = true →
  is_Some (fs w !! path_of (o +:+ "_" +:+ r) (lstrip "v" v)) →
  unsafe fuel vs provider w
  = Ret (path_of (o +:+ "_" +:+ r) (lstrip "v" v)) (add_log (using_existing_copy o r v) w).
Proof.
  intros Hne Hp Hv Hex. unfold init_frontend_unsafe.
  destruct (String.eqb_spec vs DEFAULT_VERSION_STRING); [done|].
  unfold mbind at 1. unfold M_bind at 1. rewrite Hp. simpl.
  unfold mbind at 1. unfold M_bind at 1. by rewrite probe_hit.
Qed.

Lemma unsafe_miss fuel vs provider w o r v :
  vs ≠ DEFAULT_VERSION_STRING →
  parse_version_string vs = Return (o, r, v) →
  startswith "v" v = false ∨ fs w !! path_of (o +:+ "_" +:+ r) (lstrip "v" v) = None →
  unsafe fuel vs provider w
  = resolve fuel (default (new_provider o r) provider) v
      (add_log (initializing o r v) w).
Proof.
  intros Hne Hp Hmiss. unfold init_frontend_unsafe, resolve_and_download.
  destruct (String.eqb_spec vs DEFAULT_VERSION_STRING); [done|].
  unfold mbind at 1. unfold M_bind at 1. rewrite Hp. simpl.
  unfold mbind at 1. unfold M_bind at 1. rewrite probe_miss by done.
  unfold_monad. simpl.
  destruct (call _ _ _) as [release w2| |]; [|done..].
  by destruct (download_step _ _ _ _ _).
Qed.

(** Requests are only ever added, and the first one of a resolution is
    known. *)
Lemma loop_grows fuel next acc w :
  loop fuel next acc w = OutOfFuel
  ∨ ∃ w' more, final_world (loop fuel next acc w) = Some w'
               ∧ requests w' = requests w ++ more.
Proof.
  revert next acc w. induction fuel as [|fuel IH]; intros [u|] acc w; simpl;
    try (right; exists w, []; split; [done|by rewrite app_nil_r]).
  - destruct (truthy u); [by left|]. right. exists w, []. by rewrite app_nil_r.
  - destruct (truthy u); [|right; exists w, []; by rewrite app_nil_r].
    unfold_monad. unfold requests_get.
    destruct (server (requests w) (GET u)) as [msg|resp]; [right; by eexists _, [_]|].
    destruct (is_error_status (status_code resp)); [right; by eexists _, [_]|].
    unfold json_releases. destruct (payload resp) as [page| | |];
      try (right; by eexists _, [_]).
    unfold_monad.
    destruct (IH (links_next resp) (acc ++ page) (add_request (GET u) w))
      as [-> | (w' & more & Hf & Hr)]; [by left|].
    right. exists w', (GET u :: more). split; [done|].
    rewrite Hr. simpl. by rewrite <- app_assoc.
Qed.

Lemma loop_first fuel u acc w :
  truthy u = true →
  loop fuel (Some u) acc w = OutOfFuel
  ∨ ∃ w' more, final_world (loop fuel (Some u) acc w) = Some w'
               ∧ requests w' = requests w ++ GET u :: more.
Proof.
  intros Hu. destruct fuel as [|fuel]; simpl; rewrite Hu; [by left|].
  unfold_monad. unfold requests_get.
  destruct (server (requests w) (GET u)) as [msg|resp]; [right; by eexists _, []|].
  destruct (is_error_status (status_code resp)); [right; by eexists _, []|].
  unfold json_releases. destruct (payload resp) as [page| | |];
    try (right; by eexists _, []).
  unfold_monad.
  destruct (loop_grows fuel (links_next resp) (acc ++ page) (add_request (GET u) w))
    as [-> | (w' & more & Hf & Hr)]; [by left|].
  right. exists w', more. split; [done|].
  rewrite Hr. simpl. by rewrite <- app_assoc.
Qed.

Lemma latest_release_fresh o r w :
  let req := GET (release_url (new_provider o r) +:+ "/latest") in
  ∃ w', ((∃ x, call (new_provider o r) (latest_release server) w = Ret x w')
         ∨ (∃ e, call (new_provider o r) (latest_release server) w = Exn e w'))
        ∧ requests w' = requests w ++ [req].
Proof.
  intros req. unfold call, latest_release, cached_property. simpl.
  unfold_monad. unfold requests_get. fold req.
  destruct (server (requests w) req) as [msg|resp];
    [eexists; split; [right; eexists; reflexivity|done]|].
  destruct (is_error_status (status_code resp));
    [eexists; split; [right; eexists; reflexivity|done]|].
  unfold json_release. destruct (payload resp) as [|x| |]; unfold_monad;
    try (eexists; split; [right; eexists; reflexivity|done]).
  eexists; split; [left; eexists; reflexivity|done].
Qed.

Lemma get_release_fresh fuel v o r w :
  call (new_provider o r) (get_release server fuel v) w = OutOfFuel
  ∨ ∃ w' more, ((∃ x, call (new_provider o r) (get_release server fuel v) w = Ret x w')
                ∨ (∃ e, call (new_provider o r) (get_release server fuel v) w = Exn e w'))
               ∧ requests w' = requests w ++ first_request (new_provider o r) v :: more.
Proof.
  unfold first_request, get_release. destruct (String.eqb v "latest").
  - right. destruct (latest_release_fresh o r w) as (w' & H & Hr). by exists w', [].
  - unfold call, all_releases, cached_property. unfold mbind, M_bind. simpl.
    destruct (loop_first fuel (release_url (new_provider o r)) [] w)
      as [-> | (w' & more & Hf & Hr)]; [done| by left|].
    right. exists w', more. split; [|done].
    destruct (loop fuel _ _ _) as [l w''|e w''|]; simpl in Hf; [| |done].
    + injection Hf as ->. destruct (find _ l); [left|right]; by eexists.
    + injection Hf as ->. right. by eexists.
Qed.

Lemma resolve_fresh fuel v o r w :
  resolve fuel (new_provider o r) v w = OutOfFuel
  ∨ ∃ w' more, final_world (resolve fuel (new_provider o r) v w) = Some w'
               ∧ requests w' = requests w ++ first_request (new_provider o r) v :: more.
Proof.
  unfold resolve_and_download.
  destruct (get_release_fresh fuel v o r w) as [-> | (w2 & more & [[x ->] | [e ->]] & Hr)];
    [by left| |right; by exists w2, more].
  right.
  destruct (download_step_outcome server (new_provider o r) x
              (target_of (new_provider o r) x) w2) as (w3 & l & [-> | [e ->]] & Hl);
    exists w3, (more ++ l); (split; [done|]); rewrite Hl, Hr; by rewrite <- app_assoc.
Qed.

(** With a pagination that ends and fuel for its pages, resolution ends. *)
Lemma resolve_terminates fuel v o r w pages e :
  crawl server (requests w) (release_url (new_provider o r)) pages e →
  length pages < fuel →
  resolve fuel (new_provider o r) v w ≠ OutOfFuel.
Proof.
  intros Hcrawl Hfuel. unfold resolve_and_download.
  assert (Hget : ∃ w2, (∃ x, call (new_provider o r) (get_release server fuel v) w = Ret x w2)
                       ∨ (∃ x, call (new_provider o r) (get_release server fuel v) w = Exn x w2)).
  { unfold get_release. destruct (String.eqb v "latest").
    - destruct (latest_release_fresh o r w) as (w' & H & _). by exists w'.
    - unfold call, all_releases, cached_property. unfold mbind, M_bind. simpl.
      rewrite (all_releases_loop_crawl server _ _ _ _ Hcrawl fuel [] w) by done.
      destruct e as [|u x]; [|eexists; right; by eexists].
      simpl. destruct (find _ _); eexists; [left|right]; by eexists. }
  destruct Hget as (w2 & [[x ->] | [x ->]]); [|done].
  by destruct (download_step_outcome server (new_provider o r) x
                 (target_of (new_provider o r) x) w2) as (w3 & l & [-> | [e' ->]] & _).
Qed.

(** C7, amended.  The semantic version of a resolved release is its
    [tag_name] with every leading "v" stripped ([lstrip]), the rest of the
    tag unchanged; for a tag that does not begin with "vv" this is the
    removal of one leading "v".  It never begins with "v".  The target
    directory of the download step is [CUSTOM_FRONTENDS_ROOT] joined with
    the provider's [{owner}_{repo}] and with the semantic version; it is
    what [init_frontend_unsafe] returns when the step succeeds. *)
Theorem target_directory_strips_leading_v fuel vs provider w o r v release w2 :
  vs ≠ DEFAULT_VERSION_STRING →
  parse_version_string vs = Return (o, r, v) →
  startswith "v" v = false ∨ fs w !! path_of (o +:+ "_" +:+ r) (lstrip "v" v) = None →
  let p := default (new_provider o r) provider in
  call p (get_release server fuel v) (add_log (initializing o r v) w) = Ret release w2 →
  let target :=
    joinpath (joinpath CUSTOM_FRONTENDS_ROOT (owner p +:+ "_" +:+ repo p))
             (semantic_version release) in
  (∃ n, tag_name release = (str (replicate n "v"%char) +:+ semantic_version release)%string)
  ∧ startswith "v" (semantic_version release) = false
  ∧ (startswith "vv" (tag_name release) = false →
       semantic_version release = removeprefix "v" (tag_name release))
  ∧ (provider = None → owner p = o ∧ repo p = r)
  ∧ unsafe fuel vs provider w =
      match download_step server p release target w2 with
      | Ret _ w3 => Ret target w3
      | Exn e w3 => Exn e w3
      | OutOfFuel => OutOfFuel
      end.
Proof.
  intros Hne Hp Hmiss p Hget target. split; [|split; [|split; [|split]]].
  - apply lstrip_v_prefix.
  - apply lstrip_v_no_leading_v.
  - apply lstrip_v_removeprefix.
  - by intros ->.
  - rewrite (unsafe_miss _ _ _ _ _ _ _ Hne Hp Hmiss). unfold resolve_and_download.
    fold p. by rewrite Hget.
Qed.

(** C2, amended.  For a parsed specifier whose version begins with "v",
    [init_frontend_unsafe] probes [{root}/{owner}_{repo}/{version without
    its leading v}] and returns that path at once, with no request, when
    the path exists; existence is the whole test, the contents are not
    looked at.  When the version does not begin with "v" (bare digits, or
    "latest"), or the path does not exist, it goes on to the release API:
    it does not return from the probe, and the first request of the
    resolution is issued. *)
Theorem cache_probe_for_v_versions fuel vs w o r v :
  vs ≠ DEFAULT_VERSION_STRING →
  parse_version_string vs = Return (o, r, v) →
  let expected := joinpath (joinpath CUSTOM_FRONTENDS_ROOT (o +:+ "_" +:+ r)) (lstrip "v" v) in
  (startswith "v" v = true → is_Some (fs w !! expected) →
     unsafe fuel vs None w = Ret expected (add_log (using_existing_copy o r v) w)
     ∧ requests (add_log (using_existing_copy o r v) w) = requests w)
  ∧ (startswith "v" v = false ∨ fs w !! expected = None →
     unsafe fuel vs None w = resolve fuel (new_provider o r) v (add_log (initializing o r v) w)
     ∧ (unsafe fuel vs None w = OutOfFuel
        ∨ ∃ w' more, final_world (unsafe fuel vs None w) = Some w'
                     ∧ requests w' = requests w ++ first_request (new_provider o r) v :: more)).
Proof.
  intros Hne Hp expected. split.
  - intros Hv Hex. split; [|done]. by apply unsafe_hit.
  - intros Hmiss. rewrite (unsafe_miss _ _ _ _ _ _ _ Hne Hp Hmiss). split; [done|].
    apply (resolve_fresh fuel v o r (add_log (initializing o r v) w)).
Qed.


End Resolver.

(** * Closed instances *)

Section Instances.
Import Example VersionSpec.

(** C3.  [parse_version_string] accepts ["a/b@latest\n"], a string that
    is not a version specifier: the final newline is let through by [$],
    and the triple returned is the one of ["a/b@latest"]. *)
Theorem parse_accepts_trailing_newline :
  parse_version_string ("a/b@latest" +:+ newline) = Return ("a", "b", "latest")%string
  ∧ ¬ (∃ o r v, well_formed ("a/b@latest" +:+ newline) o r v)
  ∧ parse_version_string ("a/b@latest" +:+ newline)
    ≠ Raised (ArgumentTypeError ("Invalid version string: " +:+ ("a/b@latest" +:+ newline))).
Proof.
  assert (Hp : parse_version_string ("a/b@latest" +:+ newline)
               = Return ("a", "b", "latest")%string) by (vm_compute; reflexivity).
  split; [done|]. split; [|by rewrite Hp].
  intros (o & r & v & Hwf).
  assert (Hq : parse_version_string ("a/b@latest" +:+ newline) = Return (o, r, v))
    by (apply parse_version_string_exact; by left).
  rewrite Hp in Hq. injection Hq as <- <- <-.
  destruct Hwf as [Heq _]. vm_compute in Heq. discriminate Heq.
Qed.


(** C2, counterexample.  With the version ["2.0.0"] (not "latest") and
    its cache directory present and not empty, the release API is
    contacted and no path is returned from the probe; with the version
    ["v2.0.0"] and the directory present but empty, the path is returned
    from the probe without a request. *)
Lemma cache_probe_counterexample :
  (parse_version_string "acme/widgets@2.0.0" = Return ("acme", "widgets", "2.0.0")%string
   ∧ fs (world_with "/cache/acme_widgets/2.0.0" (Directory ["index.html"%string]))
       !! "/cache/acme_widgets/2.0.0"%string = Some (Directory ["index.html"%string])
   ∧ ∃ w', init_frontend_unsafe DEFAULT BUNDLED ROOT joinpath server_500 5
             "acme/widgets@2.0.0" None
             (world_with "/cache/acme_widgets/2.0.0" (Directory ["index.html"%string]))
           = Exn (HTTPError 500 (release_url widgets)) w'
           ∧ requests w' = [GET (release_url widgets)])
  ∧ (parse_version_string "acme/widgets@v2.0.0" = Return ("acme", "widgets", "v2.0.0")%string
     ∧ fs (world_with "/cache/acme_widgets/2.0.0" (Directory []))
         !! "/cache/acme_widgets/2.0.0"%string = Some (Directory [])
     ∧ ∃ w', init_frontend_unsafe DEFAULT BUNDLED ROOT joinpath server_500 5
               "acme/widgets@v2.0.0" None
               (world_with "/cache/acme_widgets/2.0.0" (Directory []))
             = Ret "/cache/acme_widgets/2.0.0"%string w'
             ∧ requests w' = []).
Proof.
  split; (split; [vm_compute; reflexivity|]; split; [vm_compute; reflexivity|]).
  - eexists. split; [vm_compute; reflexivity|reflexivity].
  - eexists. split; [vm_compute; reflexivity|reflexivity].
Qed.

(** C2, at an instance: the version begins with "v" and the path exists
    (as an empty directory). *)
Lemma cache_probe_for_v_versions_witness :
  init_frontend_unsafe DEFAULT BUNDLED ROOT joinpath server_500 5 "acme/widgets@v2.0.0" None
    (world_with "/cache/acme_widgets/2.0.0" (Directory []))
  = Ret "/cache/acme_widgets/2.0.0"%string
      (add_log (using_existing_copy "acme" "widgets" "v2.0.0")
         (world_with "/cache/acme_widgets/2.0.0" (Directory []))).
Proof.
  apply (proj1 (cache_probe_for_v_versions DEFAULT BUNDLED ROOT joinpath server_500 5
                  "acme/widgets@v2.0.0"
                  (world_with "/cache/acme_widgets/2.0.0" (Directory []))
                  "acme" "widgets" "v2.0.0" ltac:(done) ltac:(vm_compute; reflexivity))).
  - reflexivity.
  - vm_compute. by eexists.
Defined.

(** C4, at an instance: ["1.2.3"] resolves to the release tagged
    ["v1.2.3"], the third of the list. *)
Lemma get_release_resolves_witness :
  get_release server_widgets 5 "1.2.3" {| self := widgets; world := empty_world |}
  = Ret r123
      {| self := store_all_releases [r200; r124; r123; rvv] widgets;
         world := add_requests [GET (release_url widgets); GET page2_url; GET page3_url]
                    empty_world |}.
Proof.
  apply (proj1 (proj1 (proj2 (get_release_resolves server_widgets 5 "1.2.3"
                                {| self := widgets; world := empty_world |})
                         ltac:(done))
                  [r200; r124; r123; rvv] _ ltac:(vm_compute; reflexivity))
           [r200; r124] r123 [rvv]).
  - reflexivity.
  - repeat constructor; by intros [?|?].
  - by right.
Defined.

(** C5, at an instance: three pages, the first two with a [next] link. *)
Lemma all_releases_follows_pagination_witness :
  all_releases server_widgets 5 {| self := widgets; world := empty_world |}
  = Ret [r200; r124; r123; rvv]
      {| self := store_all_releases [r200; r124; r123; rvv] widgets;
         world := add_requests [GET (release_url widgets); GET page2_url; GET page3_url]
                    empty_world |}.
Proof.
  apply (all_releases_follows_pagination server_widgets 5
           {| self := widgets; world := empty_world |}
           [(release_url widgets, [r200; r124]); (page2_url, [r123]); (page3_url, [rvv])]
           Done).
  - reflexivity.
  - eapply crawl_next; [reflexivity..|].
    eapply crawl_next; [reflexivity..|].
    eapply crawl_last; reflexivity.
  - simpl. lia.
Defined.

(** C5, counterexample.  The page is answered with status 300, which
    is not a success, and with an array of releases: no [HTTPError] is
    raised, the array is returned. *)
Lemma all_releases_counterexample :
  server_300 [] (GET (release_url widgets))
  = Replies (response 300 None (JsonReleases [r124]))
  ∧ all_releases server_300 5 {| self := widgets; world := empty_world |}
    = Ret [r124]
        {| self := store_all_releases [r124] widgets;
           world := add_request (GET (release_url widgets)) empty_world |}.
Proof. split; vm_compute; reflexivity. Qed.



(** C7, counterexample.  The release tagged ["vv1.0.0"] is what
    [get_release("v1.0.0")] resolves to on this server; its semantic
    version is ["1.0.0"], not the tag without one leading "v". *)
Lemma single_v_strip_counterexample :
  (∃ st', get_release server_widgets 5 "v1.0.0" {| self := widgets; world := empty_world |}
          = Ret rvv st')
  ∧ semantic_version rvv = "1.0.0"%string
  ∧ PyStr.removeprefix "v" (tag_name rvv) = "v1.0.0"%string
  ∧ web_root_of ROOT joinpath widgets rvv = "/cache/acme_widgets/1.0.0"%string
  ∧ web_root_of ROOT joinpath widgets rvv
    ≠ joinpath (joinpath ROOT (folder_name widgets)) (PyStr.removeprefix "v" (tag_name rvv)).
Proof.
  split; [eexists; vm_compute; reflexivity|]. by repeat split.
Qed.

(** C7, at an instance: ["1.2.3"] resolves to the tag ["v1.2.3"] and the
    bundle lands in [.../acme_widgets/1.2.3]. *)
Lemma target_directory_strips_leading_v_witness :
  ∃ w3, init_frontend_unsafe DEFAULT BUNDLED ROOT joinpath server_widgets 5
          "acme/widgets@1.2.3" None empty_world
        = Ret "/cache/acme_widgets/1.2.3"%string w3.
Proof.
  destruct (target_directory_strips_leading_v DEFAULT BUNDLED ROOT joinpath server_widgets 5
              "acme/widgets@1.2.3" None empty_world "acme" "widgets" "1.2.3" r123
              {| fs := ∅;
                 requests := [GET (release_url widgets); GET page2_url; GET page3_url];
                 log := [initializing "acme" "widgets" "1.2.3"] |}
              ltac:(done) ltac:(vm_compute; reflexivity) (or_introl eq_refl)
              ltac:(vm_compute; reflexivity))
    as (_ & _ & _ & _ & ->).
  eexists. vm_compute. reflexivity.
Defined.

(** A regular file stands where the cache root should be: [makedirs]
    raises, the [finally] clause lists the missing target and its error is
    the one that reaches the caller; the release has been resolved, no
    asset is requested. *)
Example init_frontend_unsafe_blocked :
  init_frontend_unsafe DEFAULT BUNDLED ROOT joinpath server_widgets 5 "acme/widgets@1.2.3"
    None blocked_world
  = Exn (OSError NotADirectoryError "/cache/acme_widgets/1.2.3")
      {| fs := fs blocked_world;
         requests := requests crawled;
         log := [initializing "acme" "widgets" "1.2.3"] |}.
Proof. vm_compute. reflexivity. Qed.

(** C8, counterexample.  The target of release v1.2.3 exists as an empty
    directory: the step is skipped, [init_frontend_unsafe] returns the
    path, and the directory is still there, empty. *)
Lemma download_step_counterexample :
  download_step server_widgets widgets r123 "/cache/acme_widgets/1.2.3"
    (world_with "/cache/acme_widgets/1.2.3" (Directory []))
  = Ret tt (world_with "/cache/acme_widgets/1.2.3" (Directory []))
  ∧ ∃ w', init_frontend_unsafe DEFAULT BUNDLED ROOT joinpath server_widgets 5
            "acme/widgets@1.2.3" None
            (world_with "/cache/acme_widgets/1.2.3" (Directory []))
          = Ret "/cache/acme_widgets/1.2.3"%string w'
          ∧ fs w' !! "/cache/acme_widgets/1.2.3"%string = Some (Directory []).
Proof.
  split; [vm_compute; reflexivity|].
  eexists. split; [vm_compute; reflexivity|]. vm_compute. reflexivity.
Qed.

(** C8, at an instance: the target is made with the directories above
    it; the release has no assets, so the download fails with nothing
    written, and the target is gone afterwards. *)
Lemma download_step_cleans_up_witness :
  ∃ w3,
    download_step server_widgets widgets r124 "/cache/acme_widgets/1.2.4" empty_world
    = Exn dist_zip_not_found w3
    ∧ fs w3 !! "/cache/acme_widgets/1.2.4"%string = None.
Proof.
  edestruct (proj1 (proj2 (download_step_cleans_up server_widgets widgets r124
                             "/cache/acme_widgets/1.2.4" empty_world) eq_refl))
    as (w2 & l & w3 & Hl & Hrun & Hempty & _); [vm_compute; reflexivity|].
  destruct Hrun as [[Hd _] | (e & Hd & Hs)]; vm_compute in Hd; [discriminate Hd|].
  injection Hd as <- <-. vm_compute in Hl. injection Hl as <-.
  exists w3. split; [exact Hs|exact (proj2 (Hempty eq_refl))].
Defined.

(** C9, at an instance: the only asset has no name. *)
Lemma download_nameless_asset_raises_KeyError_witness :
  download_release_asset_zip server_widgets
    (release "v1.0.0" (Some [asset None "https://example.org/x"])) "/cache/d" empty_world
  = Exn (KeyError "name") empty_world
  ∧ KeyError "name" ≠ dist_zip_not_found.
Proof.
  apply (download_nameless_asset_raises_KeyError server_widgets
           (release "v1.0.0" (Some [asset None "https://example.org/x"])) "/cache/d"
           empty_world [] (asset None "https://example.org/x") []).
  - reflexivity.
  - constructor.
  - reflexivity.
Defined.


End Instances.

(** * Further properties of the module *)

(** ** What [parse_version_string] returns *)

Section ParsedSpecifiers.
Import PyStr Re Pattern VersionSpec.

Local Abbreviation invalid value :=
  (ArgumentTypeError ("Invalid version string: " +:+ value)).

Lemma parsed_chars value o r v :
  parse_version_string value = Return (o, r, v) →
  owner_shape (chars o) ∧ repo_shape (chars r) ∧ version_shape (chars v)
  ∧ ∃ tail, at_end tail = true
            ∧ chars value = chars o ++ "/"%char :: chars r ++ "@"%char :: chars v ++ tail.
Proof.
  intros [Hwf | (value' & -> & Hwf)]%parse_version_string_exact;
    destruct Hwf as (-> & Ho & Hr & Hv); (split; [done|split; [done|split; [done|]]]).
  - exists []. split; [done|]. rewrite !chars_app. simpl. by rewrite app_nil_r.
  - exists ["010"%char]. split; [done|]. rewrite !chars_app. simpl.
    by repeat (rewrite <- app_assoc || rewrite <- app_comm_cons).
Qed.

(** Joining a parsed triple again gives a specifier that parses to the same
    triple; the string parsed was that specifier, or it followed by one
    newline. *)
Theorem parse_round_trip value o r v :
  parse_version_string value = Return (o, r, v) →
  parse_version_string (o +:+ "/" +:+ r +:+ "@" +:+ v) = Return (o, r, v)
  ∧ (value = (o +:+ "/" +:+ r +:+ "@" +:+ v)%string
     ∨ value = ((o +:+ "/" +:+ r +:+ "@" +:+ v) +:+ newline)%string).
Proof.
  intros [Hwf | (value' & -> & Hwf)]%parse_version_string_exact;
    destruct Hwf as (-> & Ho & Hr & Hv).
  - split; [|by left]. apply parse_version_string_exact. by left.
  - split; [|by right]. apply parse_version_string_exact. by left.
Qed.

Lemma version_chars v :
  version_shape v → v ≠ [] ∧ all_in (λ c, is_alnum c || bool_decide (c = "."%char)) v.
Proof.
  assert (Hd : ∀ d, all_in is_digit d →
                    all_in (λ c, is_alnum c || bool_decide (c = "."%char)) d).
  { intros d Hall. unfold all_in. eapply Forall_impl; [exact Hall|]. intros c Hc.
    simpl in *. unfold is_alnum, is_digit in *. rewrite Hc. by rewrite !orb_true_r. }
  intros [->|(pre & a & b & c & Hpre & [Ha Hda] & [_ Hdb] & [_ Hdc] & ->)].
  - split; [done|]. by repeat constructor.
  - split; [destruct a as [|x a]; [by destruct Ha|]; by destruct pre|]. unfold all_in.
    apply Forall_app; split; [destruct Hpre as [-> | ->]; by repeat constructor|].
    apply Forall_app; split; [by apply Hd|]. apply Forall_cons; split; [done|].
    apply Forall_app; split; [by apply Hd|]. apply Forall_cons; split; [done|].
    by apply Hd.
Qed.

(** The three strings of a successful parse are not empty.  The owner
    has at most 39 characters, all letters, digits or ['-']; the repo holds
    only letters, digits, ['_'], ['.'] and ['-'].  None of the three holds
    a path separator, ['/'] or ['\']. *)
Theorem parsed_components_are_plain value o r v :
  parse_version_string value = Return (o, r, v) →
  (length (chars o) ≤ 39 ∧ 1 ≤ length (chars o) ∧ all_in alphanumeric_or_hyphen (chars o))
  ∧ (1 ≤ length (chars r) ∧ all_in alphanumeric_underscore_dot_hyphen (chars r))
  ∧ 1 ≤ length (chars v)
  ∧ ("/"%char ∉ chars o ++ chars r ++ chars v)
  ∧ ("\"%char ∉ chars o ++ chars r ++ chars v).
Proof.
  intros (Ho & Hr & Hv & _)%parsed_chars.
  assert (Hoc : length (chars o) ≤ 39 ∧ 1 ≤ length (chars o)
                ∧ all_in alphanumeric_or_hyphen (chars o)).
  { destruct Ho as (a & t & -> & Ha & Ht & Hlen). split; [done|]. split; [simpl; lia|].
    constructor; [|done]. unfold alphanumeric_or_hyphen. by rewrite Ha. }
  assert (Hrc : 1 ≤ length (chars r) ∧ all_in alphanumeric_underscore_dot_hyphen (chars r)).
  { destruct Hr as [Hne Hr]. split; [|done]. destruct (chars r); simpl; [done|lia]. }
  assert (Hvc : 1 ≤ length (chars v)
                ∧ all_in (λ c, is_alnum c || bool_decide (c = "."%char)) (chars v)).
  { destruct (version_chars _ Hv) as [Hne Hall]. split; [|done].
    destruct (chars v); simpl; [done|lia]. }
  split; [done|]. split; [done|]. split; [exact (proj1 Hvc)|].
  split; rewrite !elem_of_app; intros [H|[H|H]].
  - exact (all_in_excludes "/" alphanumeric_or_hyphen _ eq_refl (proj2 (proj2 Hoc)) H).
  - exact (all_in_excludes "/" alphanumeric_underscore_dot_hyphen _ eq_refl (proj2 Hrc) H).
  - exact (all_in_excludes "/" _ _ eq_refl (proj2 Hvc) H).
  - exact (all_in_excludes "\" alphanumeric_or_hyphen _ eq_refl (proj2 (proj2 Hoc)) H).
  - exact (all_in_excludes "\" alphanumeric_underscore_dot_hyphen _ eq_refl (proj2 Hrc) H).
  - exact (all_in_excludes "\" _ _ eq_refl (proj2 Hvc) H).
Qed.

Lemma chars_cons_app o c rest :
  chars (o +:+ String c "" +:+ rest) = chars o ++ c :: chars rest.
Proof. by rewrite !chars_app. Qed.

(** A string whose part before the first ['/'] is empty or longer than 39
    characters is rejected, whatever follows. *)
Theorem parse_rejects_owner_out_of_bounds o rest :
  "/"%char ∉ chars o →
  length (chars o) = 0 ∨ 39 < length (chars o) →
  parse_version_string (o +:+ "/" +:+ rest) = Raised (invalid (o +:+ "/" +:+ rest)).
Proof.
  intros Hslash Hlen.
  destruct (parse_version_string (o +:+ "/" +:+ rest)) as [[[o' r'] v']|e] eqn:Hp;
    [|by rewrite (parse_version_string_error _ _ Hp)].
  apply parsed_chars in Hp as (Ho' & _ & _ & tail & _ & Hc).
  rewrite (chars_cons_app o "/" rest) in Hc.
  apply split_unique in Hc as [Heq _]; [|done|by apply owner_no_slash].
  destruct Ho' as (a & t & Hat & _ & _ & Hlen'). rewrite <- Heq in *.
  rewrite Hat in Hlen. simpl in Hlen. rewrite Hat in Hlen'. simpl in Hlen'. lia.
Qed.

(** A string without ['/'] or without ['@'] is rejected. *)
Theorem parse_rejects_missing_separator value :
  "/"%char ∉ chars value ∨ "@"%char ∉ chars value →
  parse_version_string value = Raised (invalid value).
Proof.
  intros Hsep.
  destruct (parse_version_string value) as [[[o r] v]|e] eqn:Hp;
    [|by rewrite (parse_version_string_error _ _ Hp)].
  apply parsed_chars in Hp as (_ & _ & _ & tail & _ & Hc).
  destruct Hsep as [H|H]; destruct H; rewrite Hc.
  - apply elem_of_app. right. by left.
  - apply elem_of_app. right. right. apply elem_of_app. right. by left.
Qed.

Lemma number_head d : number d → ∃ c t, d = c :: t ∧ c ≠ "v"%char.
Proof.
  intros [Hne Hd]. destruct d as [|c t]; [done|]. exists c, t. split; [done|].
  apply Forall_cons in Hd as [Hc _]. by intros ->.
Qed.

(** The version of a successful parse carries at most one leading "v":
    [lstrip("v")] removes exactly that one, as [removeprefix("v")] would.
    A version without a leading "v" is left as it is; one with a leading
    "v" is "v" followed by what [lstrip] leaves; and what [lstrip] leaves
    does not begin with "v". *)
Theorem parsed_version_strips_one_v value o r v :
  parse_version_string value = Return (o, r, v) →
  lstrip "v" v = removeprefix "v" v
  ∧ (startswith "v" v = false → lstrip "v" v = v)
  ∧ (startswith "v" v = true → v = ("v" +:+ lstrip "v" v)%string)
  ∧ startswith "v" (lstrip "v" v) = false.
Proof.
  intros (_ & _ & Hv & _)%parsed_chars.
  split; [|split; [|split; [|apply lstrip_v_no_leading_v]]];
    destruct Hv as [Hl|(pre & a & b & c & Hpre & Ha & Hb & Hc & Hl)];
    try (apply (chars_inj v "latest") in Hl as ->; done);
    destruct (number_head a Ha) as (d & a' & -> & Hd);
    assert (Hdv : Ascii.eqb "v" d = false) by (apply Ascii.eqb_neq; congruence);
    (assert (v = str (pre ++ (d :: a') ++ "."%char :: b ++ "."%char :: c)) as ->
       by (by rewrite <- Hl, str_chars));
    clear Hl;
    (assert (Hbody : lstrip "v" (str (pre ++ (d :: a') ++ "."%char :: b ++ "."%char :: c))
                     = str ((d :: a') ++ "."%char :: b ++ "."%char :: c))
       by (unfold lstrip; rewrite chars_str; change (chars "v") with ["v"%char];
           destruct Hpre as [-> | ->]; simpl;
           (rewrite bool_decide_eq_false_2; [done|]); by rewrite in_v));
    rewrite Hbody; unfold removeprefix; rewrite ?chars_str;
    change (chars "v") with ["v"%char];
    destruct Hpre as [-> | ->]; cbn [app drop_prefix]; rewrite ?startswith_v_cons;
    rewrite ?Hdv, ?Ascii.eqb_refl; done.
Qed.

Lemma owner_no_underscore o : owner_shape o → "_"%char ∉ o.
Proof.
  intros (a & t & -> & Ha & Ht & _) Hin. apply elem_of_cons in Hin as [Heq|Hin].
  - subst a. by vm_compute in Ha.
  - by apply (all_in_excludes "_" alphanumeric_or_hyphen t).
Qed.

(** Two parsed specifiers with the same cache folder name, or the same
    release URL, have the same owner and the same repo: the owner holds
    neither ['_'] nor ['/']. *)
Theorem parsed_owner_repo_determined value1 o1 r1 v1 value2 o2 r2 v2 :
  parse_version_string value1 = Return (o1, r1, v1) →
  parse_version_string value2 = Return (o2, r2, v2) →
  (folder_name (new_provider o1 r1) = folder_name (new_provider o2 r2) → o1 = o2 ∧ r1 = r2)
  ∧ (release_url (new_provider o1 r1) = release_url (new_provider o2 r2) → o1 = o2 ∧ r1 = r2).
Proof.
  intros (Ho1 & _)%parsed_chars (Ho2 & _)%parsed_chars. split.
  - unfold folder_name. simpl. intros H. apply (f_equal chars) in H.
    rewrite !(chars_cons_app _ "_") in H.
    apply split_unique in H as [H1 H2]; [|by apply owner_no_underscore..].
    split; by apply chars_inj.
  - unfold release_url. simpl. intros H.
    apply (inj (String.app "https://api.github.com/repos/")) in H.
    apply (f_equal chars) in H. rewrite !(chars_cons_app _ "/"), !chars_app in H.
    apply split_unique in H as [H1 H2]; [|by apply owner_no_slash..].
    apply app_inv_tail in H2. split; by apply chars_inj.
Qed.

End ParsedSpecifiers.

(** ** The provider: what is fetched, and when *)

Section ProviderFetches.
Import PyStr.
Variable server : list Request → Request → Reply.

Local Abbreviation loop := (all_releases_loop server).

(** The pagination loop changes nothing but the list of requests. *)
Lemma loop_touches_only_requests fuel next acc w w' :
  final_state (loop fuel next acc w) = Some w' →
  fs w' = fs w ∧ log w' = log w ∧ ∃ more, requests w' = requests w ++ more.
Proof.
  revert next acc w. induction fuel as [|fuel IH]; intros [u|] acc w; simpl;
    try (intros [= <-]; repeat split; exists []; by rewrite app_nil_r).
  - destruct (truthy u); [done|]. intros [= <-]. repeat split. exists []. by rewrite app_nil_r.
  - destruct (truthy u);
      [|intros [= <-]; repeat split; exists []; by rewrite app_nil_r].
    unfold_monad. unfold requests_get.
    destruct (server (requests w) (GET u)) as [msg|resp];
      [intros [= <-]; repeat split; by exists [GET u]|].
    destruct (is_error_status (status_code resp));
      [intros [= <-]; repeat split; by exists [GET u]|].
    unfold json_releases. destruct (payload resp) as [page| | |];
      try (intros [= <-]; repeat split; by exists [GET u]).
    unfold_monad. intros H. apply IH in H as (Hfs & Hlog & more & Hreq).
    repeat split; [done..|]. exists (GET u :: more). rewrite Hreq. simpl.
    by rewrite <- app_assoc.
Qed.

Lemma all_releases_stored fuel st l st' :
  all_releases server fuel st = Ret l st' →
  ∀ fuel' w, all_releases server fuel' {| self := self st'; world := w |}
             = Ret l {| self := self st'; world := w |}.
Proof.
  unfold all_releases, cached_property.
  destruct (all_releases_cache (self st)) as [l0|] eqn:Hc.
  - intros [= <- <-] fuel' w. simpl. by rewrite Hc.
  - destruct (all_releases_loop _ _ _ _ _) as [l1 w1|e w1|]; [|done..].
    by intros [= <- <-] fuel' w.
Qed.

(** A cached property is fetched once: the value it returned is returned
    again, for any fuel and in any world, without a request; and when the
    fetch raises, nothing is stored and the provider is as before. *)
Theorem cached_properties_fetch_once fuel st :
  (∀ l st', all_releases server fuel st = Ret l st' →
     ∀ fuel' w, all_releases server fuel' {| self := self st'; world := w |}
                = Ret l {| self := self st'; world := w |})
  ∧ (∀ r st', latest_release server st = Ret r st' →
       ∀ w, latest_release server {| self := self st'; world := w |}
            = Ret r {| self := self st'; world := w |})
  ∧ (∀ e st', all_releases server fuel st = Exn e st' → self st' = self st)
  ∧ (∀ e st', latest_release server st = Exn e st' → self st' = self st).
Proof.
  split; [|split; [|split]]; [apply all_releases_stored|..];
    unfold all_releases, latest_release, cached_property.
  - intros r st'. destruct (latest_release_cache (self st)) as [r0|] eqn:Hc.
    + intros [= <- <-] w. simpl. by rewrite Hc.
    + match goal with |- context [match ?m with _ => _ end] => destruct m as [r1 w1|e w1|] end;
        [|done..].
      by intros [= <- <-] w.
  - intros e st'. destruct (all_releases_cache (self st)); [done|].
    destruct (all_releases_loop _ _ _ _ _) as [l1 w1|e1 w1|]; [done| |done].
    by intros [= <- <-].
  - intros e st'. destruct (latest_release_cache (self st)); [done|].
    match goal with |- context [match ?m with _ => _ end] => destruct m as [r1 w1|e1 w1|] end;
      [done| |done].
    by intros [= <- <-].
Qed.

(** Once the list of releases has been fetched, resolving any further
    version on the same provider is a search in the stored list: the world
    does not change, whether the version is found or not. *)
Theorem releases_are_listed_once fuel st l st' :
  all_releases server fuel st = Ret l st' →
  ∀ version fuel', version ≠ "latest"%string →
    get_release server fuel' version st'
    = match find (tag_matches version) l with
      | Some release => Ret release st'
      | None => Exn (version_not_found version) st'
      end.
Proof.
  intros Hall version fuel' Hne.
  pose proof (all_releases_stored fuel st l st' Hall fuel' (world st')) as Hmemo.
  assert (Hst : {| self := self st'; world := world st' |} = st') by (by destruct st').
  rewrite Hst in Hmemo.
  unfold get_release. destruct (String.eqb_spec version "latest"); [done|].
  unfold mbind, M_bind. rewrite Hmemo. by destruct (find _ l).
Qed.

Lemma startswith_v_app x : startswith "v" ("v" +:+ x) = true.
Proof.
  unfold startswith. cbn [String.append String.prefix].
  destruct (ascii_dec "v" "v"); [by destruct x|done].
Qed.

(** A request for a version written with a leading "v" matches only tags
    that begin with "v": on a list whose tags have none, it raises the
    not-found error even when the bare version is a tag of the list.  (The
    bare request, by contrast, matches the bare tag and the "v" tag.) *)
Theorem v_request_needs_v_tag fuel st l st' x :
  all_releases server fuel st = Ret l st' →
  Forall (λ release, startswith "v" (tag_name release) = false) l →
  get_release server fuel ("v" +:+ x) st = Exn (version_not_found ("v" +:+ x)) st'.
Proof.
  intros Hall Htags. unfold get_release.
  destruct (String.eqb_spec ("v" +:+ x) "latest") as [Heq|_]; [done|].
  unfold mbind, M_bind. rewrite Hall.
  rewrite (find_nothing (tag_matches ("v" +:+ x)) l); [done|].
  eapply Forall_impl; [exact Htags|]. intros release Hr. simpl in Hr.
  apply tag_matches_false. intros [Ht|Ht]; rewrite Ht, startswith_v_app in Hr; done.
Qed.

Lemma get_release_leaves_files fuel version st st' :
  final_state (get_release server fuel version st) = Some st' →
  fs (world st') = fs (world st)
  ∧ log (world st') = log (world st)
  ∧ owner (self st') = owner (self st)
  ∧ repo (self st') = repo (self st)
  ∧ ∃ more, requests (world st') = requests (world st) ++ more.
Proof.
  assert (Hnil : ∀ s : PState, ∃ more, requests (world s) = requests (world s) ++ more)
    by (intros s; exists []; by rewrite app_nil_r).
  unfold get_release. destruct (String.eqb version "latest").
  - unfold latest_release, cached_property.
    destruct (latest_release_cache (self st)); [by intros [= <-]|].
    unfold_monad. unfold requests_get.
    destruct (server _ _) as [msg|resp]; [intros [= <-]; repeat split; by exists [GET (release_url (self st) +:+ "/latest")]|].
    destruct (is_error_status (status_code resp));
      [intros [= <-]; repeat split; by eexists [_]|].
    unfold json_release. destruct (payload resp); unfold_monad;
      intros [= <-]; repeat split; by eexists [_].
  - unfold mbind, M_bind, all_releases, cached_property.
    destruct (all_releases_cache (self st)) as [l|].
    + destruct (find _ l); by intros [= <-].
    + destruct (loop fuel (Some (release_url (self st))) [] (world st))
        as [l w1|e w1|] eqn:Hloop; [| |done].
      * assert (Hw : final_state (loop fuel (Some (release_url (self st))) [] (world st))
                     = Some w1) by (by rewrite Hloop).
        apply loop_touches_only_requests in Hw as (? & ? & ?).
        destruct (find _ l); by intros [= <-].
      * assert (Hw : final_state (loop fuel (Some (release_url (self st))) [] (world st))
                     = Some w1) by (by rewrite Hloop).
        apply loop_touches_only_requests in Hw as (? & ? & ?).
        by intros [= <-].
Qed.

(** Resolving a release changes nothing but the requests issued and the
    provider's stored values: the filesystem, the log, and the owner and
    repo of the provider are as before, and the earlier requests are kept
    in order. *)
Theorem get_release_touches_only_requests fuel version st st' :
  final_state (get_release server fuel version st) = Some st' →
  fs (world st') = fs (world st)
  ∧ log (world st') = log (world st)
  ∧ owner (self st') = owner (self st)
  ∧ repo (self st') = repo (self st)
  ∧ ∃ more, requests (world st') = requests (world st) ++ more.
Proof. apply get_release_leaves_files. Qed.

(** A [next] link whose URL is the empty string ends the pagination: the
    page that carries it is the last one fetched. *)
Theorem empty_next_link_ends_pagination fuel st resp page :
  all_releases_cache (self st) = None →
  server (requests (world st)) (GET (release_url (self st))) = Replies resp →
  is_error_status (status_code resp) = false →
  payload resp = JsonReleases page →
  links_next resp = Some ""%string →
  0 < fuel →
  all_releases server fuel st
  = Ret page {| self := store_all_releases page (self st);
                world := add_request (GET (release_url (self st))) (world st) |}.
Proof.
  intros Hcache Hs Hst Hbody Hnext Hfuel.
  unfold all_releases, cached_property. rewrite Hcache.
  destruct fuel as [|fuel]; [lia|]. simpl.
  unfold mbind, M_bind, requests_get. rewrite Hs.
  unfold raise_for_status. rewrite Hst. unfold json_releases. rewrite Hbody.
  unfold_monad. rewrite (loop_stops server) by (by rewrite Hnext). done.
Qed.

End ProviderFetches.

(** ** The download: what it writes, and where *)

Section DownloadEffects.
Context {paths : Paths}.
Variable server : list Request → Request → Reply.

Local Abbreviation download := (download_release_asset_zip server).

Lemma download_runs release dest w pre a post :
  assets release = Some (pre ++ a :: post) →
  Forall named_other pre →
  asset_name a = Some "dist.zip"%string →
  asset_url a ≠ ""%string →
  download release dest w
  = (response ← requests_get server (GET_octet_stream (asset_url a));
     raise_for_status (asset_url a) response ;;
     zip_ref ← zipfile.ZipFile (payload response);
     zipfile.extractall zip_ref dest) w.
Proof.
  intros Has Hpre Ha Hu.
  assert (Htr : PyStr.truthy (asset_url a) = true).
  { unfold PyStr.truthy. by destruct (String.eqb_spec (asset_url a) ""). }
  unfold download_release_asset_zip. rewrite Has. simpl.
  rewrite (scan_assets_found _ _ _ Hpre Ha). unfold_monad. simpl. by rewrite Htr.
Qed.

(** When the request for [dist.zip] gets no reply, an error status, or a
    body that is not a zip archive, the call raises ([RequestException],
    [HTTPError] with the status, [BadZipFile]) after that one request and
    with the filesystem and the log untouched. *)
Theorem download_failures_write_nothing release dest w pre a post :
  assets release = Some (pre ++ a :: post) →
  Forall named_other pre →
  asset_name a = Some "dist.zip"%string →
  asset_url a ≠ ""%string →
  (∀ msg, server (requests w) (GET_octet_stream (asset_url a)) = Fails msg →
     download release dest w
     = Exn (RequestException msg) (add_request (GET_octet_stream (asset_url a)) w))
  ∧ (∀ resp, server (requests w) (GET_octet_stream (asset_url a)) = Replies resp →
       is_error_status (status_code resp) = true →
       download release dest w
       = Exn (HTTPError (status_code resp) (asset_url a))
           (add_request (GET_octet_stream (asset_url a)) w))
  ∧ (∀ resp, server (requests w) (GET_octet_stream (asset_url a)) = Replies resp →
       is_error_status (status_code resp) = false →
       (∀ arch, payload resp ≠ Zip arch) →
       download release dest w
       = Exn BadZipFile (add_request (GET_octet_stream (asset_url a)) w)).
Proof.
  intros Has Hpre Ha Hu. rewrite (download_runs _ _ _ _ _ _ Has Hpre Ha Hu).
  unfold_monad. unfold requests_get. split; [|split].
  - by intros msg ->.
  - intros resp -> Hst. by rewrite Hst.
  - intros resp -> Hst Hbody. rewrite Hst.
    destruct (payload resp) as [| |arch|]; try done. by destruct (Hbody arch).
Qed.

Lemma write_members_effect dest ns w w' :
  final_world (zipfile.write_members dest ns w) = Some w' →
  log w' = log w ∧ requests w' = requests w
  ∧ (∀ p, p ≠ dest → p ∉ parents dest → fs w' !! p = fs w !! p)
  ∧ (∀ l, fs w !! dest = Some (Directory l) →
       (∃ more, fs w' !! dest = Some (Directory (l ++ more)))
       ∧ ∀ p, p ≠ dest → fs w' !! p = fs w !! p).
Proof.
  revert w. induction ns as [|n ns IH]; intros w; simpl.
  - intros [= <-]. split; [done|]. split; [done|]. split; [done|].
    intros l Hl. split; [|done]. exists []. by rewrite app_nil_r.
  - unfold mbind, M_bind.
    destruct (fs w !! dest) as [[|l0]|] eqn:Hd.
    + destruct (write_member_outcome dest n w)
        as (w1 & [[Hw1 _] | [e Hw1]] & Hr & Hl & Hfr); rewrite Hw1.
      * intros Hrun. apply IH in Hrun as (Hlog & Hreq & Hother & _).
        split; [congruence|]. split; [congruence|]. split; [|by intros l [=]].
        intros p Hp Hup. rewrite Hother by done. by apply Hfr.
      * intros [= <-]. split; [done|]. split; [done|]. split; [done|]. by intros l [=].
    + rewrite (write_member_directory _ _ _ _ Hd).
      intros Hrun. apply IH in Hrun as (Hlog & Hreq & Hother & Hdest). simpl in *.
      destruct (Hdest (zipfile.add_entry n l0)) as [[more Hmore] Hframe];
        [by rewrite lookup_insert_eq|].
      split; [done|]. split; [done|]. split.
      * intros p Hp _. rewrite Hframe by done. by rewrite lookup_insert_ne.
      * intros l [= <-]. split.
        -- unfold zipfile.add_entry in Hmore. case_bool_decide.
           ++ by exists more.
           ++ exists (n :: more). by rewrite Hmore, <- app_assoc.
        -- intros p Hp. rewrite Hframe by done. by rewrite lookup_insert_ne.
    + destruct (write_member_outcome dest n w)
        as (w1 & [[Hw1 _] | [e Hw1]] & Hr & Hl & Hfr); rewrite Hw1.
      * intros Hrun. apply IH in Hrun as (Hlog & Hreq & Hother & _).
        split; [congruence|]. split; [congruence|]. split; [|by intros l [=]].
        intros p Hp Hup. rewrite Hother by done. by apply Hfr.
      * intros [= <-]. split; [done|]. split; [done|]. split; [done|]. by intros l [=].
Qed.

(** Whatever the outcome, [download_release_asset_zip] never logs and
    issues at most one request.  It writes at the destination: the
    entries the destination had are kept, and when the destination is a
    directory already no other path changes.  When the destination is
    missing, [extractall] makes it with the directories above it: these
    apart, no path changes.  (The members themselves, below the
    destination, are recorded as its entries.) *)
Theorem download_touches_only_destination release dest w w' :
  final_world (download release dest w) = Some w' →
  log w' = log w
  ∧ (∀ p, p ≠ dest → p ∉ parents dest → dest ∉ parents p → fs w' !! p = fs w !! p)
  ∧ (∀ l, fs w !! dest = Some (Directory l) →
       (∃ more, fs w' !! dest = Some (Directory (l ++ more)))
       ∧ ∀ p, p ≠ dest → dest ∉ parents p → fs w' !! p = fs w !! p)
  ∧ (requests w' = requests w ∨ ∃ req, requests w' = requests w ++ [req]).
Proof.
  assert (Hsame : ∀ w0 : World, fs w0 = fs w → log w0 = log w →
            (requests w0 = requests w ∨ ∃ req, requests w0 = requests w ++ [req]) →
            log w0 = log w
            ∧ (∀ p, p ≠ dest → p ∉ parents dest → dest ∉ parents p →
                 fs w0 !! p = fs w !! p)
            ∧ (∀ l, fs w !! dest = Some (Directory l) →
                 (∃ more, fs w0 !! dest = Some (Directory (l ++ more)))
                 ∧ ∀ p, p ≠ dest → dest ∉ parents p → fs w0 !! p = fs w !! p)
            ∧ (requests w0 = requests w ∨ ∃ req, requests w0 = requests w ++ [req])).
  { intros w0 Hfs Hlog Hreq. rewrite Hfs. split; [done|]. split; [done|]. split; [|done].
    intros l Hl. split; [|done]. exists []. by rewrite app_nil_r. }
  unfold download_release_asset_zip.
  destruct (scan_assets (default [] (assets release))) as [[u|]|e]; unfold_monad; simpl;
    try (intros [= <-]; apply Hsame; [done|done|by left]).
  destruct (PyStr.truthy u); [|intros [= <-]; apply Hsame; [done|done|by left]].
  unfold requests_get.
  destruct (server (requests w) (GET_octet_stream u)) as [msg|resp];
    [intros [= <-]; apply Hsame; [done|done|right; by eexists]|].
  destruct (is_error_status (status_code resp));
    [intros [= <-]; apply Hsame; [done|done|right; by eexists]|].
  destruct (payload resp) as [| |arch|]; simpl;
    try (intros [= <-]; apply Hsame; [done|done|right; by eexists]).
  unfold zipfile.extractall. unfold_monad. intros Hrun.
  assert (Hw : final_world (zipfile.write_members dest (entries arch)
                              (add_request (GET_octet_stream u) w)) = Some w').
  { destruct (zipfile.write_members _ _ _) as [[] w1|e w1|]; [|done..].
    revert Hrun. by destruct (broken arch). }
  apply write_members_effect in Hw as (Hlog & Hreq & Hother & Hdest).
  split; [done|]. split; [intros p Hp Hup _; by apply Hother|]. split.
  - intros l Hl. destruct (Hdest l Hl) as [Hmore Hframe]. split; [done|].
    intros p Hp _. by apply Hframe.
  - right. eexists. exact Hreq.
Qed.

(** Only the first asset named [dist.zip] counts: the assets after it are
    not read, whatever they are. *)
Theorem download_ignores_assets_after_dist_zip release1 release2 dest w pre a post1 post2 :
  assets release1 = Some (pre ++ a :: post1) →
  assets release2 = Some (pre ++ a :: post2) →
  Forall named_other pre →
  asset_name a = Some "dist.zip"%string →
  download release1 dest w = download release2 dest w.
Proof.
  intros H1 H2 Hpre Ha. unfold download_release_asset_zip. rewrite H1, H2. simpl.
  by rewrite !(scan_assets_found _ _ _ Hpre Ha).
Qed.

End DownloadEffects.

(** ** The resolver: paths, cache and fallback *)

Section ResolverBehaviour.
Import PyStr.
Context {paths : Paths}.
Variable DEFAULT_VERSION_STRING : string.
Variable DEFAULT_FRONTEND_PATH : string.
Variable CUSTOM_FRONTENDS_ROOT : string.
Variable joinpath : string → string → string.
Variable server : list Request → Request → Reply.

Local Abbreviation unsafe :=
  (init_frontend_unsafe DEFAULT_VERSION_STRING DEFAULT_FRONTEND_PATH CUSTOM_FRONTENDS_ROOT
     joinpath server).
Local Abbreviation init :=
  (init_frontend DEFAULT_VERSION_STRING DEFAULT_FRONTEND_PATH CUSTOM_FRONTENDS_ROOT
     joinpath server).
Local Abbreviation path_of := (cache_path CUSTOM_FRONTENDS_ROOT joinpath).
Local Abbreviation target_of := (web_root_of CUSTOM_FRONTENDS_ROOT joinpath).
Local Abbreviation resolve := (resolve_and_download CUSTOM_FRONTENDS_ROOT joinpath server).
Local Abbreviation download := (download_release_asset_zip server).
Local Abbreviation step := (download_step server).

Lemma lstrip_v_app x : lstrip "v" ("v" +:+ x) = lstrip "v" x.
Proof.
  unfold lstrip. change (chars "v") with ["v"%char].
  change (chars ("v" +:+ x)) with ("v"%char :: chars x).
  cbn [lstrip_chars]. by rewrite bool_decide_eq_true_2 by (by apply in_v).
Qed.

Lemma semantic_version_matched version release :
  matches_tag version release → semantic_version release = lstrip "v" version.
Proof. unfold semantic_version. intros [-> | ->]; [done|apply lstrip_v_app]. Qed.

Lemma resolved_tag fuel version p w release w2 :
  version ≠ "latest"%string →
  call p (get_release server fuel version) w = Ret release w2 →
  matches_tag version release.
Proof.
  intros Hne. unfold call, get_release.
  destruct (String.eqb_spec version "latest"); [done|].
  unfold mbind, M_bind. destruct (all_releases _ _ _) as [l st'|e st'|]; [|done..].
  destruct (find (tag_matches version) l) as [x|] eqn:Hfind; [|done].
  intros [= <- _]. apply find_some in Hfind as [_ Hx]. by apply tag_matches_true.
Qed.

Lemma call_get_release_files fuel version p w w2 :
  final_world (call p (get_release server fuel version) w) = Some w2 →
  fs w2 = fs w ∧ log w2 = log w.
Proof.
  unfold call. intros H.
  destruct (get_release server fuel version {| self := p; world := w |})
    as [x st'|e st'|] eqn:Hget; [| |done]; injection H as <-;
    (destruct (get_release_leaves_files server fuel version {| self := p; world := w |} st')
      as (Hfs & Hlog & _); [by rewrite Hget|done]).
Qed.

(** The path returned for [owner/repo@version], with a version other than
    "latest", is the cache path [{root}/{owner}_{repo}/{version without
    leading v}]: the directory downloaded into is the directory that a
    later probe looks at.  [init_frontend] returns that path or the bundled
    default. *)
Theorem returned_path_is_the_cache_path fuel vs w o r v p w' :
  vs ≠ DEFAULT_VERSION_STRING →
  parse_version_string vs = Return (o, r, v) →
  v ≠ "latest"%string →
  (unsafe fuel vs None w = Ret p w' →
     p = joinpath (joinpath CUSTOM_FRONTENDS_ROOT (o +:+ "_" +:+ r)) (lstrip "v" v))
  ∧ (init fuel vs w = Ret p w' →
       p = DEFAULT_FRONTEND_PATH
       ∨ p = joinpath (joinpath CUSTOM_FRONTENDS_ROOT (o +:+ "_" +:+ r)) (lstrip "v" v)).
Proof.
  intros Hne Hp Hv.
  assert (Hun : ∀ q w1, unsafe fuel vs None w = Ret q w1 →
            q = joinpath (joinpath CUSTOM_FRONTENDS_ROOT (o +:+ "_" +:+ r)) (lstrip "v" v)).
  { intros q w1.
    destruct (startswith "v" v) eqn:Hsw;
      [destruct (fs w !! path_of (o +:+ "_" +:+ r) (lstrip "v" v)) as [n|] eqn:Hn|].
    - rewrite (unsafe_hit _ _ _ _ _ fuel vs None w o r v Hne Hp Hsw) by (by rewrite Hn).
      by intros [= <- _].
    - rewrite (unsafe_miss _ _ _ _ _ fuel vs None w o r v Hne Hp) by (by right).
      unfold resolve_and_download. simpl.
      destruct (call _ _ _) as [release w2| |] eqn:Hget; [|done..].
      destruct (download_step _ _ _ _ _) as [[] w3| |]; [|done..].
      intros [= <- _]. unfold web_root_of, cache_path.
      by rewrite (semantic_version_matched v release (resolved_tag _ _ _ _ _ _ Hv Hget)).
    - rewrite (unsafe_miss _ _ _ _ _ fuel vs None w o r v Hne Hp) by (by left).
      unfold resolve_and_download. simpl.
      destruct (call _ _ _) as [release w2| |] eqn:Hget; [|done..].
      destruct (download_step _ _ _ _ _) as [[] w3| |]; [|done..].
      intros [= <- _]. unfold web_root_of, cache_path.
      by rewrite (semantic_version_matched v release (resolved_tag _ _ _ _ _ _ Hv Hget)). }
  split; [apply Hun|].
  unfold init_frontend, try_except.
  destruct (unsafe fuel vs None w) as [q w1|e w1|] eqn:Hrun; [| |done].
  - intros [= <- _]. right. by apply (Hun q w1).
  - unfold_monad. intros [= <- _]. by left.
Qed.

(** When the directory of the resolved release is already there, it is
    returned as it is: no asset is requested and nothing is written, even
    if the release has no [dist.zip] at all. *)
Theorem existing_target_is_returned fuel vs provider w o r v release w2 :
  vs ≠ DEFAULT_VERSION_STRING →
  parse_version_string vs = Return (o, r, v) →
  startswith "v" v = false ∨ fs w !! path_of (o +:+ "_" +:+ r) (lstrip "v" v) = None →
  call (default (new_provider o r) provider) (get_release server fuel v)
    (add_log (initializing o r v) w) = Ret release w2 →
  is_Some (fs w !! target_of (default (new_provider o r) provider) release) →
  unsafe fuel vs provider w = Ret (target_of (default (new_provider o r) provider) release) w2
  ∧ fs w2 = fs w.
Proof.
  intros Hne Hp Hmiss Hget Hex.
  destruct (call_get_release_files fuel v (default (new_provider o r) provider)
              (add_log (initializing o r v) w) w2) as [Hfs _]; [by rewrite Hget|].
  split; [|done].
  rewrite (unsafe_miss _ _ _ _ _ fuel vs provider w o r v Hne Hp Hmiss).
  unfold resolve_and_download. rewrite Hget.
  unfold download_step, mbind, M_bind.
  rewrite path_exists_present; [done|]. by rewrite Hfs.
Qed.

Lemma add_entries_nonempty l ns : l ≠ [] ∨ ns ≠ [] → add_entries l ns ≠ [].
Proof.
  revert l. induction ns as [|n ns IH]; intros l [Hl|Hns]; simpl; try done.
  - apply IH. left. unfold zipfile.add_entry. case_bool_decide; [done|]. by destruct l.
  - apply IH. left. unfold zipfile.add_entry. case_bool_decide; [|by destruct l].
    intros ->. by apply elem_of_nil in H.
Qed.


(** After a resolution of a version written with "v" has returned a path,
    every later resolution of the same specifier returns the same path
    from the cache probe, without a request, as long as the path exists. *)
Theorem later_resolution_hits_the_cache fuel fuel' vs w o r v p w' w'' :
  vs ≠ DEFAULT_VERSION_STRING →
  parse_version_string vs = Return (o, r, v) →
  startswith "v" v = true →
  unsafe fuel vs None w = Ret p w' →
  fs w'' = fs w' →
  is_Some (fs w' !! p) →
  unsafe fuel' vs None w'' = Ret p (add_log (using_existing_copy o r v) w'').
Proof.
  intros Hne Hp Hsw Hfirst Hfs Hex.
  assert (Hv : v ≠ "latest"%string) by (by intros ->).
  assert (Hpath : p = path_of (o +:+ "_" +:+ r) (lstrip "v" v)).
  { destruct (fs w !! path_of (o +:+ "_" +:+ r) (lstrip "v" v)) as [n|] eqn:Hn.
    - rewrite (unsafe_hit _ _ _ _ _ fuel vs None w o r v Hne Hp Hsw) in Hfirst
        by (by rewrite Hn).
      by injection Hfirst as <- _.
    - rewrite (unsafe_miss _ _ _ _ _ fuel vs None w o r v Hne Hp) in Hfirst by (by right).
      unfold resolve_and_download in Hfirst. simpl in Hfirst.
      destruct (call _ _ _) as [release w2| |] eqn:Hget; [|done..].
      destruct (download_step _ _ _ _ _) as [[] w3| |]; [|done..].
      injection Hfirst as <- _. unfold web_root_of, cache_path.
      by rewrite (semantic_version_matched v release (resolved_tag _ _ _ _ _ _ Hv Hget)). }
  subst p. apply unsafe_hit; try done. by rewrite Hfs.
Qed.

(** A string that does not parse makes [init_frontend] return the bundled
    path at once: the error, which carries the string, and the fallback
    notice are logged; no request is issued and no file is touched. *)
Theorem invalid_specifier_falls_back fuel vs w e :
  vs ≠ DEFAULT_VERSION_STRING →
  parse_version_string vs = Raised e →
  e = ArgumentTypeError ("Invalid version string: " +:+ vs)
  ∧ init fuel vs w
    = Ret DEFAULT_FRONTEND_PATH
        {| fs := fs w;
           requests := requests w;
           log := log w ++ [LogError "Failed to initialize frontend: %s" e;
                            LogInfo "Falling back to the default frontend."] |}.
Proof.
  intros Hne Hp. split; [by apply parse_version_string_error|].
  unfold init_frontend, try_except.
  rewrite (unsafe_invalid _ _ _ _ _ fuel vs None w e Hne Hp).
  unfold_monad. unfold add_log. simpl. by rewrite <- app_assoc.
Qed.

Lemma download_failure_clean release dest w l e w' :
  fs w !! dest = Some (Directory l) →
  download release dest w = Exn e w' →
  e ≠ BadZipFile →
  fs w' = fs w.
Proof.
  intros Hl. unfold download_release_asset_zip.
  destruct (scan_assets (default [] (assets release))) as [[u|]|x]; unfold_monad; simpl;
    try by intros [= <- <-].
  destruct (truthy u); [|by intros [= <- <-]].
  unfold requests_get.
  destruct (server (requests w) (GET_octet_stream u)) as [msg|resp];
    [by intros [= <- <-]|].
  destruct (is_error_status (status_code resp)); [by intros [= <- <-]|].
  destruct (payload resp) as [| |arch|]; simpl; try by intros [= <- <-].
  rewrite (extractall_directory arch dest _ l) by done.
  destruct (broken arch); [|done]. by intros [= <- _].
Qed.


End ResolverBehaviour.

(** ** [frontend_version] *)

Section FrontendVersionFacts.
Import PyStr.
Variable int : string → option Z.

Lemma split_chars_length sep l :
  length (split_chars sep l) = S (length (filter (λ c, c = sep) l)).
Proof.
  induction l as [|c l IH]; simpl; [done|].
  destruct (Ascii.eqb_spec c sep) as [->|Hne].
  - rewrite filter_cons_True by done. simpl. by rewrite IH.
  - rewrite filter_cons_False by done.
    destruct (split_chars sep l); simpl in *; [done|by rewrite <- IH].
Qed.

(** [frontend_version] is never the empty tuple.  It has one number per
    dot-separated piece of the version, in order, when [int] accepts every
    piece; it is [(0,)] when the attribute is missing or [int] rejects a
    piece. *)
Theorem frontend_version_is_total version :
  frontend_version int version ≠ []
  ∧ (∀ s numbers, version = Some s → mapM int (split "." s) = Some numbers →
       frontend_version int version = numbers
       ∧ length numbers = S (length (filter (λ c, c = "."%char) (chars s)))
       ∧ Forall2 (λ piece n, int piece = Some n) (split "." s) numbers)
  ∧ (∀ s piece, version = Some s → piece ∈ split "." s → int piece = None →
       frontend_version int version = [0%Z])
  ∧ (version = None → frontend_version int version = [0%Z]).
Proof.
  split; [|split; [|split]].
  - destruct version as [s|]; simpl; [|done].
    destruct (mapM int (split "." s)) as [numbers|] eqn:Hm; [|done].
    apply length_mapM in Hm. unfold split in Hm. rewrite length_fmap, split_chars_length in Hm.
    by destruct numbers.
  - intros s numbers -> Hm. simpl. rewrite Hm. split; [done|].
    split.
    + apply length_mapM in Hm. unfold split in Hm.
      by rewrite length_fmap, split_chars_length in Hm.
    + by apply mapM_Some.
  - intros s piece -> Hin Hnone. simpl.
    destruct (mapM int (split "." s)) as [numbers|] eqn:Hm; [|done].
    apply mapM_Some in Hm. apply list_elem_of_lookup in Hin as [i Hi].
    destruct (Forall2_lookup_l _ _ _ _ _ Hm Hi) as (n & _ & Hn). congruence.
  - by intros ->.
Qed.

End FrontendVersionFacts.

(** * Closed instances of the further properties *)

Section FurtherInstances.
Import Example VersionSpec.

Local Ltac decided := apply (bool_decide_unpack _); vm_compute; exact I.

(** The round trip, from a string with a final newline. *)
Lemma parse_round_trip_witness :
  parse_version_string ("acme" +:+ "/" +:+ "widgets" +:+ "@" +:+ "v1.2.3")
  = Return ("acme", "widgets", "v1.2.3")%string.
Proof.
  apply (proj1 (parse_round_trip ("acme/widgets@v1.2.3" +:+ newline) "acme" "widgets" "v1.2.3"
                  ltac:(vm_compute; reflexivity))).
Defined.

Lemma parsed_components_are_plain_witness :
  "/"%char ∉ PyStr.chars "acme" ++ PyStr.chars "widgets" ++ PyStr.chars "v1.2.3".
Proof.
  apply (proj1 (proj2 (proj2 (proj2
           (parsed_components_are_plain "acme/widgets@v1.2.3" "acme" "widgets" "v1.2.3"
              ltac:(vm_compute; reflexivity)))))).
Defined.

(** An owner of 40 characters. *)
Lemma parse_rejects_owner_out_of_bounds_witness :
  parse_version_string ("a123456789b123456789c123456789d123456789" +:+ "/" +:+ "widgets@latest")
  = Raised (ArgumentTypeError
              ("Invalid version string: "
               +:+ ("a123456789b123456789c123456789d123456789" +:+ "/" +:+ "widgets@latest"))).
Proof.
  apply (parse_rejects_owner_out_of_bounds "a123456789b123456789c123456789d123456789"
           "widgets@latest").
  - decided.
  - right. vm_compute. lia.
Defined.

Lemma parse_rejects_missing_separator_witness :
  parse_version_string "acme-widgets@latest"
  = Raised (ArgumentTypeError ("Invalid version string: " +:+ "acme-widgets@latest")).
Proof.
  apply (parse_rejects_missing_separator "acme-widgets@latest"). left. decided.
Defined.

Lemma parsed_version_strips_one_v_witness :
  PyStr.lstrip "v" "v1.2.3" = PyStr.removeprefix "v" "v1.2.3".
Proof.
  apply (proj1 (parsed_version_strips_one_v "acme/widgets@v1.2.3" "acme" "widgets" "v1.2.3"
                  ltac:(vm_compute; reflexivity))).
Defined.

Lemma parsed_owner_repo_determined_witness :
  ("acme" = "acme" ∧ "widgets" = "widgets")%string.
Proof.
  apply (proj1 (parsed_owner_repo_determined
                  "acme/widgets@latest" "acme" "widgets" "latest"
                  ("acme/widgets@v1.2.3" +:+ newline) "acme" "widgets" "v1.2.3"
                  ltac:(vm_compute; reflexivity) ltac:(vm_compute; reflexivity))
           eq_refl).
Defined.

(** The list fetched from [server_widgets] is returned again without fuel
    and without a request. *)
Lemma cached_properties_fetch_once_witness :
  all_releases server_widgets 0
    {| self := store_all_releases listed widgets; world := empty_world |}
  = Ret listed {| self := store_all_releases listed widgets; world := empty_world |}.
Proof.
  apply (proj1 (cached_properties_fetch_once server_widgets 5
                  {| self := widgets; world := empty_world |})
           listed {| self := store_all_releases listed widgets; world := crawled |}
           ltac:(vm_compute; reflexivity) 0 empty_world).
Defined.

Lemma releases_are_listed_once_witness :
  get_release server_widgets 0 "1.2.4"
    {| self := store_all_releases listed widgets; world := crawled |}
  = Ret r124 {| self := store_all_releases listed widgets; world := crawled |}.
Proof.
  apply (releases_are_listed_once server_widgets 5
           {| self := widgets; world := empty_world |}
           listed {| self := store_all_releases listed widgets; world := crawled |}
           ltac:(vm_compute; reflexivity) "1.2.4" 0 ltac:(done)).
Defined.

(** The only tag is ["1.2.3"]; the request for ["v1.2.3"] finds nothing. *)
Lemma v_request_needs_v_tag_witness :
  get_release server_bare 5 ("v" +:+ "1.2.3") {| self := widgets; world := empty_world |}
  = Exn (version_not_found ("v" +:+ "1.2.3"))
      {| self := store_all_releases [r_bare] widgets;
         world := add_request (GET (release_url widgets)) empty_world |}.
Proof.
  apply (v_request_needs_v_tag server_bare 5 {| self := widgets; world := empty_world |}
           [r_bare] _ "1.2.3" ltac:(vm_compute; reflexivity)).
  repeat constructor.
Defined.

Lemma get_release_touches_only_requests_witness :
  fs (world {| self := store_all_releases listed widgets; world := crawled |})
  = fs (world {| self := widgets; world := empty_world |}).
Proof.
  apply (proj1 (get_release_touches_only_requests server_widgets 5 "1.2.3"
                  {| self := widgets; world := empty_world |}
                  {| self := store_all_releases listed widgets; world := crawled |}
                  ltac:(vm_compute; reflexivity))).
Defined.

Lemma empty_next_link_ends_pagination_witness :
  all_releases server_empty_link 5 {| self := widgets; world := empty_world |}
  = Ret [r124] {| self := store_all_releases [r124] widgets;
                  world := add_request (GET (release_url widgets)) empty_world |}.
Proof.
  apply (empty_next_link_ends_pagination server_empty_link 5
           {| self := widgets; world := empty_world |}
           (response 200 (Some ""%string) (JsonReleases [r124])) [r124]
           eq_refl eq_refl eq_refl eq_refl eq_refl ltac:(lia)).
Defined.

(** The asset is answered with status 500. *)
Lemma download_failures_write_nothing_witness :
  download_release_asset_zip server_500 r123 "/cache/acme_widgets/1.2.3" empty_world
  = Exn (HTTPError 500 dist_url) (add_request (GET_octet_stream dist_url) empty_world).
Proof.
  apply (proj1 (proj2
           (download_failures_write_nothing server_500 r123 "/cache/acme_widgets/1.2.3"
              empty_world
              [asset (Some "source.tar.gz"%string) "https://example.org/src"]
              (asset (Some "dist.zip"%string) dist_url) []
              eq_refl
              ltac:(constructor; [by eexists; split|constructor])
              eq_refl ltac:(done)))
           (response 500 None OtherBody) eq_refl eq_refl).
Defined.

(** The destination is missing: it is made with the two directories
    above it; a path elsewhere is as before. *)
Lemma download_touches_only_destination_witness :
  ∃ w',
    final_world (download_release_asset_zip server_widgets r123 "/cache/acme_widgets/1.2.3"
                   empty_world) = Some w'
    ∧ fs w' !! "/bundled/static"%string = fs empty_world !! "/bundled/static"%string.
Proof.
  eexists. split; [vm_compute; reflexivity|].
  refine (proj1 (proj2
            (download_touches_only_destination server_widgets r123
               "/cache/acme_widgets/1.2.3" empty_world _ _))
            "/bundled/static"%string _ _ _).
  - vm_compute. reflexivity.
  - done.
  - decided.
  - decided.
Defined.

(** An asset without a name after [dist.zip] is not read. *)
Lemma download_ignores_assets_after_dist_zip_witness :
  download_release_asset_zip server_widgets r123 "/cache/acme_widgets/1.2.3" empty_world
  = download_release_asset_zip server_widgets
      (release "v1.2.3" (Some [asset (Some "source.tar.gz"%string) "https://example.org/src";
                               asset (Some "dist.zip"%string) dist_url;
                               asset None ""]))
      "/cache/acme_widgets/1.2.3" empty_world.
Proof.
  apply (download_ignores_assets_after_dist_zip server_widgets r123
           (release "v1.2.3" (Some [asset (Some "source.tar.gz"%string) "https://example.org/src";
                                    asset (Some "dist.zip"%string) dist_url;
                                    asset None ""]))
           "/cache/acme_widgets/1.2.3" empty_world
           [asset (Some "source.tar.gz"%string) "https://example.org/src"]
           (asset (Some "dist.zip"%string) dist_url) [] [asset None ""]
           eq_refl eq_refl
           ltac:(constructor; [by eexists; split|constructor])
           eq_refl).
Defined.

(** ["acme/widgets@1.2.3"] resolves to the release tagged ["v1.2.3"]. *)
Lemma returned_path_is_the_cache_path_witness :
  "/cache/acme_widgets/1.2.3"%string
  = joinpath (joinpath ROOT ("acme" +:+ "_" +:+ "widgets")) (PyStr.lstrip "v" "1.2.3").
Proof.
  refine (proj1 (returned_path_is_the_cache_path DEFAULT BUNDLED ROOT joinpath server_widgets
                   5 "acme/widgets@1.2.3" empty_world "acme" "widgets" "1.2.3"
                   "/cache/acme_widgets/1.2.3" _
                   ltac:(done) ltac:(vm_compute; reflexivity) ltac:(done)) _).
  vm_compute. reflexivity.
Defined.

(** The directory of release v1.2.3 is there: it is returned after the
    three requests that list the releases. *)
Lemma existing_target_is_returned_witness :
  init_frontend_unsafe DEFAULT BUNDLED ROOT joinpath server_widgets 5 "acme/widgets@1.2.3" None
    (world_with "/cache/acme_widgets/1.2.3" (Directory ["index.html"%string]))
  = Ret "/cache/acme_widgets/1.2.3"%string
      {| fs := {[ "/cache/acme_widgets/1.2.3"%string := Directory ["index.html"%string] ]};
         requests := requests crawled;
         log := [initializing "acme" "widgets" "1.2.3"] |}.
Proof.
  apply (proj1 (existing_target_is_returned DEFAULT BUNDLED ROOT joinpath server_widgets
                  5 "acme/widgets@1.2.3" None
                  (world_with "/cache/acme_widgets/1.2.3" (Directory ["index.html"%string]))
                  "acme" "widgets" "1.2.3" r123 _
                  ltac:(done) ltac:(vm_compute; reflexivity) ltac:(by left)
                  ltac:(vm_compute; reflexivity)
                  ltac:(vm_compute; eexists; reflexivity))).
Defined.


(** The first resolution of ["acme/widgets@v1.2.3"] downloads; the second
    returns the same path from the probe, without fuel. *)
Lemma later_resolution_hits_the_cache_witness :
  ∃ w',
    init_frontend_unsafe DEFAULT BUNDLED ROOT joinpath server_widgets 5 "acme/widgets@v1.2.3"
      None empty_world
    = Ret "/cache/acme_widgets/1.2.3"%string w'
    ∧ init_frontend_unsafe DEFAULT BUNDLED ROOT joinpath server_widgets 0 "acme/widgets@v1.2.3"
        None w'
      = Ret "/cache/acme_widgets/1.2.3"%string
          (add_log (using_existing_copy "acme" "widgets" "v1.2.3") w').
Proof.
  eexists. split; [vm_compute; reflexivity|].
  eapply (later_resolution_hits_the_cache DEFAULT BUNDLED ROOT joinpath server_widgets
           5 0 "acme/widgets@v1.2.3" empty_world "acme" "widgets" "v1.2.3").
  - done.
  - vm_compute; reflexivity.
  - reflexivity.
  - vm_compute; reflexivity.
  - reflexivity.
  - vm_compute. eexists. reflexivity.
Defined.

(** A version with two numbers only. *)
Lemma invalid_specifier_falls_back_witness :
  init_frontend DEFAULT BUNDLED ROOT joinpath server_500 5 "acme/widgets@v1.2" empty_world
  = Ret BUNDLED
      {| fs := ∅;
         requests := [];
         log := [LogError "Failed to initialize frontend: %s"
                   (ArgumentTypeError ("Invalid version string: " +:+ "acme/widgets@v1.2"));
                 LogInfo "Falling back to the default frontend."] |}.
Proof.
  apply (proj2 (invalid_specifier_falls_back DEFAULT BUNDLED ROOT joinpath server_500
                  5 "acme/widgets@v1.2" empty_world
                  (ArgumentTypeError ("Invalid version string: " +:+ "acme/widgets@v1.2"))
                  ltac:(done) ltac:(vm_compute; reflexivity))).
Defined.


Lemma frontend_version_is_total_witness :
  frontend_version decimal (Some "1.20.3"%string) = [1; 20; 3]%Z.
Proof.
  apply (proj1 (proj1 (proj2 (frontend_version_is_total decimal (Some "1.20.3"%string)))
                  "1.20.3"%string [1; 20; 3]%Z eq_refl ltac:(vm_compute; reflexivity))).
Defined.

End FurtherInstances.
